(** * FiniteAutomata.py: regular-expression rules compiled to NFA and DFA

    A shallow embedding of [src/FiniteAutomata/FiniteAutomata.py] with the
    properties of its interval reducer, regexp-tree translator and printer,
    NFA builder and DFA builder.

    Python objects are kept in a store indexed by their [id] (the class
    counter [_ids]), so that two references to one state are one key.
    Integers are [Z]; strings are [string]. *)

From Stdlib Require Import ZArith List String Ascii Lia.
From stdpp Require Import gmap strings list sorting.

Local Open Scope Z_scope.
Set Warnings "-register-all".

(** ** Exceptions raised by the module *)

Inductive exn :=
| NodeIsNotTerminalState
| NodeAlreadyHasTerminalToken
| LookoutMustBeSingleCharacter
| LookoutTupleMissFormated
| UnrecognizedLookoutFormat
| AttributeError   (* Python: attribute access on [None] *)
| IndexError       (* Python: tuple or list index out of range *)
| KeyError         (* Python: key missing from a dictionary *)
| ValueError.      (* Python: [chr] outside [range(256)] *)

(** Outcome of a call: a returned value, a raised exception, or, for the
    functions defined with a recursion budget, the budget running out. *)
Inductive result (A : Type) :=
| Returns (a : A)
| Raises (e : exn)
| OutOfFuel.
Arguments Returns {A} a.
Arguments Raises {A} e.
Arguments OutOfFuel {A}.

#[global] Instance result_bind : MBind result := fun A B k r =>
  match r with
  | Returns a => k a
  | Raises e => Raises e
  | OutOfFuel => OutOfFuel
  end.

#[global] Instance result_fmap : FMap result := fun A B f r =>
  match r with
  | Returns a => Returns (f a)
  | Raises e => Raises e
  | OutOfFuel => OutOfFuel
  end.

Definition raises {A} (r : result A) : Prop := exists e, r = Raises e.

(** ** Values stored in the terminal slot

    [terminal_token] holds [None], the sentinel [IGNORED = object()], or
    whatever the caller passes: a string, a function, or (through the DFA
    constructor) an integer. *)

Inductive token_value :=
| PyNone
| IGNORED
| PyInt (z : Z)
| PyStr (s : string)
| PyCallable (name : string).

(** Python truthiness, as used by [if self.terminal_token:]. *)
Definition truthy (v : token_value) : bool :=
  match v with
  | PyNone => false
  | IGNORED => true
  | PyInt z => negb (z =? 0)
  | PyStr s => negb (String.eqb s "")
  | PyCallable _ => true
  end.

Definition is_none (v : token_value) : bool :=
  match v with PyNone => true | _ => false end.

Definition is_ignored (v : token_value) : bool :=
  match v with IGNORED => true | _ => false end.

(** ** class FiniteAutomata

    A node of the automaton graph.  [E] is the type of [next_states]: a
    list of [(lookout, state)] pairs for the NFA, a dictionary for the DFA.
    References to other nodes are their ids. *)

Record FiniteAutomata (E : Type) := mkState {
  id : nat;
  next_states : E;
  terminal_token : token_value;
  max_repeat_handled : Z
}.
Arguments mkState {E} _ _ _ _.
Arguments id {E} _.
Arguments next_states {E} _.
Arguments terminal_token {E} _.
Arguments max_repeat_handled {E} _.

(** Class attribute [max_repeat_handled = 100]. *)
Definition default_max_repeat_handled : Z := 100.

(** The lookout value [EMPTY = (-1, -1)]. *)
Definition EMPTY : Z * Z := (-1, -1).

Section Terminal.
Context {E : Type}.
Implicit Type self : FiniteAutomata E.

Definition with_terminal self (v : token_value) : FiniteAutomata E :=
  mkState (id self) (next_states self) v (max_repeat_handled self).

(** [__init__(terminal_token=None, max_handled_repeat=None)], for a node
    whose id was drawn from [_ids] and whose [next_states] starts as
    [empty]. *)
Definition init (new_id : nat) (empty : E) (terminal : token_value)
    (max_handled_repeat : option Z) : FiniteAutomata E :=
  mkState new_id empty terminal
    (match max_handled_repeat with
     | Some m => if m =? 0 then default_max_repeat_handled else m
     | None => default_max_repeat_handled
     end).

Definition terminal_exists self : bool :=
  if truthy (terminal_token self) then true else false.

Definition terminal_is_ignored self : bool :=
  is_ignored (terminal_token self).

Definition set_terminal_to_ignored self : FiniteAutomata E :=
  if negb (truthy (terminal_token self))
  then with_terminal self IGNORED
  else self.

Definition set_terminal_token self (tok : token_value) : FiniteAutomata E :=
  if negb (terminal_exists self) then
    if is_none tok then set_terminal_to_ignored self
    else with_terminal self tok
  else self.

Definition delete_terminal_token self : FiniteAutomata E :=
  with_terminal self PyNone.

(** Returns [None] for an ignored terminal, the token otherwise. *)
Definition get_terminal_token self : result token_value :=
  if terminal_exists self then
    Returns (if terminal_is_ignored self then PyNone else terminal_token self)
  else Raises NodeIsNotTerminalState.

End Terminal.

(** ** Set operations *)

Definition value_is_in_range (value : Z) (range : Z * Z) : bool :=
  (range.1 <=? value) && (value <=? range.2).

(** The [while] loop of [set_to_intervals], reading [ascii_list] from
    [index] on.  The list ends with the appended [float('inf')], which is
    the element read when [rest] is exhausted: it never equals [max + 1],
    so that last turn closes the interval [(min, max)]. *)
Fixpoint sweep (rest : list Z) (min max : Z) (interval_list : list (Z * Z))
    : list (Z * Z) :=
  match rest with
  | [] => interval_list ++ [(min, max)]
  | ascii :: rest' =>
      if ascii =? max + 1
      then sweep rest' min (max + 1) interval_list
      else sweep rest' ascii ascii (interval_list ++ [(min, max)])
  end.

Definition set_to_intervals (ascii_set : gset Z) : list (Z * Z) :=
  let set_size := size ascii_set in
  if decide (set_size = 0%nat) then []
  else
    let ascii_list := merge_sort Z.le (elements ascii_set) in
    match ascii_list with
    | [] => []
    | first :: rest => sweep rest first first []
    end.

(** ** Tokens of [sre_parse]

    The structural token stream produced by Python's [sre_parse], which
    this module consumes: [(tag, argument)] tuples.  [other] stands for the
    tags the module never names ('any', 'not_literal', 'category',
    'negate', ...). *)

Inductive sre_token :=
| literal (c : Z)
| range (lo hi : Z)
| in_ (items : list sre_token)
| max_repeat (min max : Z) (sub : list sre_token)
| branch (alternatives : list (list sre_token))
| subpattern (sub : list sre_token)
| at_ (position : string)
| other (tag : string).

(** [set(range(lo, hi + 1))] *)
Definition range_set (lo hi : Z) : gset Z :=
  list_to_set (seqZ lo (hi + 1 - lo)).

Fixpoint sre_token_to_set (token : sre_token) : gset Z :=
  match token with
  | literal value => {[ value ]}
  | in_ items =>
      (fix over (l : list sre_token) : gset Z :=
         match l with
         | [] => ∅
         | t :: l' => sre_token_to_set t ∪ over l'
         end) items
  | range lo hi => range_set lo hi
  | _ => ∅
  end.

Definition sre_list_to_set (regexp_list : list sre_token) : gset Z :=
  foldl (fun alphabet token => alphabet ∪ sre_token_to_set token) ∅ regexp_list.

Definition sre_list_to_interval (regexp_list : list sre_token) : list (Z * Z) :=
  set_to_intervals (sre_list_to_set regexp_list).

(** ** class RegexpTree

    A reference to a tree is [None] ([NoTree]) or a node of type 'single',
    'union' or 'kleene'. *)

Inductive RegexpTree :=
| NoTree
| single (min_ascii max_ascii : Z) (next : RegexpTree)
| union (fst snd : RegexpTree) (next : RegexpTree)
| kleene (pattern : RegexpTree) (next : RegexpTree).

(** Python 2 [chr]. *)
Definition chr (i : Z) : result string :=
  if (0 <=? i) && (i <? 256)
  then Returns (String (ascii_of_N (Z.to_N i)) EmptyString)
  else Raises ValueError.

(** Calling [print_regexp] on [None] is an attribute access on [None]. *)
Fixpoint print_regexp (self : RegexpTree) : result string :=
  match self with
  | NoTree => Raises AttributeError
  | single min_ascii max_ascii next =>
      exp ← (if min_ascii =? max_ascii then chr min_ascii
             else lo ← chr min_ascii; hi ← chr max_ascii;
                  Returns ("[" +:+ lo +:+ "-" +:+ hi +:+ "]"));
      match next with
      | NoTree => Returns exp
      | _ => rest ← print_regexp next; Returns (exp +:+ rest)
      end
  | union fst snd next =>
      exp ← match fst, snd with
            | NoTree, _ => x ← print_regexp snd; Returns ("(" +:+ x +:+ ")?")
            | _, NoTree => x ← print_regexp fst; Returns ("(" +:+ x +:+ ")?")
            | _, _ => x ← print_regexp fst; y ← print_regexp snd;
                      Returns ("(" +:+ x +:+ ")|(" +:+ y +:+ ")")
            end;
      match next with
      | NoTree => Returns exp
      | _ => rest ← print_regexp next; Returns (exp +:+ rest)
      end
  | kleene pattern next =>
      exp ← (x ← print_regexp pattern; Returns ("(" +:+ x +:+ ")*"));
      match next with
      | NoTree => Returns exp
      | _ => rest ← print_regexp next; Returns (exp +:+ rest)
      end
  end.

(** Node types met when walking a tree from its root: the node, then
    its branches, then its continuation. *)
Inductive node_type := Tsingle | Tunion | Tkleene.

Fixpoint tags (t : RegexpTree) : list node_type :=
  match t with
  | NoTree => []
  | single _ _ next => Tsingle :: tags next
  | union fst snd next => Tunion :: tags fst ++ tags snd ++ tags next
  | kleene pattern next => Tkleene :: tags pattern ++ tags next
  end.

(** Number of nodes. *)
Fixpoint tree_size (t : RegexpTree) : nat :=
  match t with
  | NoTree => 0
  | single _ _ next => S (tree_size next)
  | union fst snd next => S (tree_size fst + tree_size snd + tree_size next)
  | kleene pattern next => S (tree_size pattern + tree_size next)
  end.

(** ** The translator: [sre_to_regexp_tree] and its two helpers

    The three functions call one another, and [sre_to_regexp_tree] calls
    itself on streams it builds ([min] copies of a repeated stream, a
    'branch' token it makes up), so the recursion is not structural.  The
    bodies are written over [recur], the translator one level of budget
    down; [sre_to_regexp_tree] ties the knot. *)

Section Translator.
Variable recur : list sre_token -> Z -> result RegexpTree.

(** [make_regexp_intervals_union] as called with
    [already_in_intervals=True]; the first call, on the 'in' token,
    goes through [sre_list_to_interval] before. *)
Fixpoint make_regexp_intervals_union (intervals : list (Z * Z))
    (next : list sre_token) (max_handled_repeat : Z) : result RegexpTree :=
  match intervals with
  | [] => Returns NoTree
  | [(min, max)] =>
      nx ← recur next max_handled_repeat;
      Returns (single min max nx)
  | fst :: rest =>
      snd_tree ← make_regexp_intervals_union rest [] max_handled_repeat;
      nx ← recur next max_handled_repeat;
      Returns (union (single fst.1 fst.2 NoTree) snd_tree nx)
  end.

Fixpoint make_regexp_sre_union (regexp_union : list (list sre_token))
    (next : list sre_token) (max_handled_repeat : Z) : result RegexpTree :=
  match regexp_union with
  | [] => Returns NoTree
  | [only] => recur only max_handled_repeat
  | fst_exp :: rest =>
      fst_branch ← recur fst_exp max_handled_repeat;
      snd_branch ← make_regexp_sre_union rest [] max_handled_repeat;
      next_branch ← recur next max_handled_repeat;
      match fst_branch, snd_branch with
      | NoTree, NoTree => Returns next_branch
      | _, _ => Returns (union fst_branch snd_branch next_branch)
      end
  end.

(** [min * token_repeated] *)
Definition repeat_list (n : Z) (l : list sre_token) : list sre_token :=
  mjoin (replicate (Z.to_nat n) l).

Definition sre_to_regexp_tree_body (sre_regexp : list sre_token)
    (max_handled_repeat : Z) : result RegexpTree :=
  match sre_regexp with
  | [] => Returns NoTree
  | current_token :: regexp_tail =>
      match current_token with
      | literal c =>
          nx ← recur regexp_tail default_max_repeat_handled;
          Returns (single c c nx)
      | range lo hi =>
          nx ← recur regexp_tail default_max_repeat_handled;
          Returns (single lo hi nx)
      | in_ _ =>
          make_regexp_intervals_union (sre_list_to_interval [current_token])
            regexp_tail max_handled_repeat
      | max_repeat min max token_repeated =>
          if 0 <? min then
            let new_max :=
              if max <=? max_handled_repeat then max - min else max in
            let extension :=
              repeat_list min token_repeated
                ++ [max_repeat 0 new_max token_repeated] ++ regexp_tail in
            recur extension max_handled_repeat
          else if (1 <=? max) && (max <=? max_handled_repeat) then
            let branch_token :=
              branch [ [max_repeat 0 (max - 1) token_repeated];
                       token_repeated
                         ++ [max_repeat 0 (max - 1) token_repeated] ] in
            recur (branch_token :: regexp_tail) max_handled_repeat
          else if max =? 0 then
            recur regexp_tail max_handled_repeat
          else
            pattern ← recur token_repeated max_handled_repeat;
            nx ← recur regexp_tail default_max_repeat_handled;
            Returns (kleene pattern nx)
      | branch union_elements =>
          make_regexp_sre_union union_elements regexp_tail max_handled_repeat
      | subpattern sub_regexp =>
          recur (sub_regexp ++ regexp_tail) default_max_repeat_handled
      | at_ _ => Returns NoTree
      | other _ => Returns NoTree
      end
  end.
End Translator.

Fixpoint sre_to_regexp_tree (fuel : nat) (sre_regexp : list sre_token)
    (max_handled_repeat : Z) : result RegexpTree :=
  match fuel with
  | O => OutOfFuel
  | S fuel' =>
      sre_to_regexp_tree_body (sre_to_regexp_tree fuel')
        sre_regexp max_handled_repeat
  end.

(** [format_regexp], over the tokenizer [sre_parse.parse], which is not
    part of this module. *)
Definition format_regexp (sre_parse : string -> result (list sre_token))
    (fuel : nat) (regexp : string) : result RegexpTree :=
  parsed_regexp ← sre_parse regexp;
  sre_to_regexp_tree fuel parsed_regexp default_max_repeat_handled.

(** ** The object store

    All nodes built so far, by id, and the class counter [_ids]: the id the
    next constructed node receives. *)

Record store (E : Type) := mkStore {
  nodes : gmap nat (FiniteAutomata E);
  ids : nat
}.
Arguments mkStore {E} _ _.
Arguments nodes {E} _.
Arguments ids {E} _.

(** [self.__class__(terminal_token)]: draws an id and registers the node. *)
Definition construct {E} (empty : E) (terminal : token_value) (h : store E)
    : nat * store E :=
  let new_state := init (ids h) empty terminal None in
  (ids h, mkStore (<[ids h := new_state]> (nodes h)) (S (ids h))).

(** In-place update of one node. *)
Definition update {E} (self : nat) (f : FiniteAutomata E -> FiniteAutomata E)
    (h : store E) : store E :=
  mkStore (alter f self (nodes h)) (ids h).

Definition with_next_states {E} (f : E -> E) (s : FiniteAutomata E)
    : FiniteAutomata E :=
  mkState (id s) (f (next_states s)) (terminal_token s) (max_repeat_handled s).

(** A store holding one start node and nothing else. *)
Definition start_store {E} (empty : E) (max_handled_repeat : option Z)
    : store E :=
  mkStore {[ 0%nat := init 0%nat empty PyNone max_handled_repeat ]} 1%nat.

(** ** class LexerNFA *)

Module LexerNFA.

(** [next_states]: list of [(lookout, next state)], lookout a range. *)
Definition edges := list ((Z * Z) * nat).
Definition nfa := store edges.

Definition append_edge (lookout : Z * Z) (target : nat)
    (s : FiniteAutomata edges) : FiniteAutomata edges :=
  with_next_states (fun l => l ++ [(lookout, target)]) s.

Definition add_transition_range (self : nat) (min_ascii max_ascii : Z)
    (h : nfa) : nat * nfa :=
  let lookout := (min_ascii, max_ascii) in
  let '(new_state, h) := construct [] PyNone h in
  (new_state, update self (append_edge lookout new_state) h).

Definition add_empty_transition (self : nat) (h : nfa) : nat * nfa :=
  let '(new_state, h) := construct [] PyNone h in
  (new_state, update self (append_edge EMPTY new_state) h).

Definition add_transition_to_state (self : nat) (min_ascii max_ascii : Z)
    (state : nat) (h : nfa) : nfa :=
  update self (append_edge (min_ascii, max_ascii) state) h.

Definition add_empty_transition_to_state (self state : nat) (h : nfa) : nfa :=
  update self (append_edge EMPTY state) h.

Definition transitions (self : nat) (h : nfa) : edges :=
  match nodes h !! self with
  | Some s => next_states s
  | None => []
  end.

Definition get_transition_states_for_lookout (self : nat) (lookout : Z)
    (h : nfa) : list nat :=
  (filter (fun tr => value_is_in_range lookout tr.1 = true) (transitions self h)).*2.

Definition get_transition_for_empty_string (self : nat) (h : nfa) : list nat :=
  (filter (fun tr => tr.1 = EMPTY) (transitions self h)).*2.

(** [add_rule]: returns [(first, last)]. *)
Fixpoint add_rule (regexp : RegexpTree) (self : nat) (h : nfa)
    : (nat * nat) * nfa :=
  match regexp with
  | NoTree => ((self, self), h)
  | single min_ascii max_ascii next =>
      let '(first, h) := add_empty_transition self h in
      let '(nxt, h) := add_transition_range first min_ascii max_ascii h in
      let '((_, last), h) := add_rule next nxt h in
      ((first, last), h)
  | union fst snd _ =>
      let '(first, h) := add_empty_transition self h in
      let '(fst_branch, h) := add_rule fst first h in
      let '(snd_branch, h) := add_rule snd first h in
      let '(last, h) := add_empty_transition fst_branch.2 h in
      let h := add_empty_transition_to_state snd_branch.2 last h in
      ((first, last), h)
  | kleene pattern next =>
      let '(first, h) := add_empty_transition self h in
      let '((s1, s2), h) := add_rule pattern first h in
      let '(s3, h) := add_empty_transition s2 h in
      let h := add_empty_transition_to_state s2 s1 h in
      let h := add_empty_transition_to_state first s3 h in
      let last := s3 in
      let '((_, last), h) := add_rule next last h in
      ((first, last), h)
  end.

(** [build], on rules whose pattern [sre_parse] has tokenized already. *)
Definition build (fuel : nat) (rules : list (list sre_token * token_value))
    (self : nat) (h : nfa) : result nfa :=
  foldl (fun acc '(rule, token) =>
           h ← acc;
           formated_rule ←
             sre_to_regexp_tree fuel rule default_max_repeat_handled;
           let '((_, terminal_node), h) := add_rule formated_rule self h in
           Returns (update terminal_node
                      (fun s => set_terminal_token s token) h))
        (Returns h) rules.

End LexerNFA.

(** ** class LexerDFA *)

Module LexerDFA.

(** A dictionary from a lookout value, a code point or the default
    [-1], to one target state: what every method of [LexerDFA] reads and
    writes [next_states] as ([next_states[lookout] = ...],
    [next_states.get(lookout)]). *)
Abbreviation table := (gmap Z nat).

(** What [next_states] holds on a node of a [LexerDFA].  No constructor
    of [LexerDFA] is in src: a node is made by the inherited
    [FiniteAutomata.__init__], which sets [next_states = []], and
    nothing that [add_rule] or [add_or_recover_lookout] calls adds to
    that list.  A node holds a dictionary only where its owner has
    assigned one. *)
Inductive container :=
| EmptyList
| Dict (m : table).

(** [current_state] holds the attribute of that name of the nodes that
    have one: it is read when a layer is linked with itself, and nothing
    in src assigns it. *)
Record dfa := mkDfa {
  graph : store container;
  current_state : gmap nat Z
}.

(** The object of a state.  A state the store does not hold is read as
    one the constructor has just made: no transition, and a write into
    its [next_states] raises. *)
Definition node (self : nat) (d : dfa) : option (FiniteAutomata container) :=
  nodes (graph d) !! self.

(** The target the state has on record for [lookout]; a list holds no
    transition. *)
Definition get_next_state (self : nat) (lookout : Z) (d : dfa) : option nat :=
  s ← node self d;
  match next_states s with
  | Dict m => m !! lookout
  | EmptyList => None
  end.

(** ** Calls that change the store and may raise

    A call takes the store and either returns a value or raises; both
    ways it leaves a store, since what was constructed and written
    before an exception stays. *)
Inductive outcome (A : Type) :=
| Done (a : A) (d : dfa)
| Fails (e : exn) (d : dfa).
Arguments Done {A} a d.
Arguments Fails {A} e d.

Definition action (A : Type) : Type := dfa -> outcome A.

#[global] Instance action_ret : MRet action := fun A a d => Done a d.

#[global] Instance action_bind : MBind action := fun A B k m d =>
  match m d with
  | Done a d => k a d
  | Fails e d => Fails e d
  end.

Definition raise {A} (e : exn) : action A := fun d => Fails e d.

(** Reading the store, and changing it. *)
Definition read {A} (f : dfa -> A) : action A := fun d => Done (f d) d.

Definition modify (f : dfa -> dfa) : action unit := fun d => Done tt (f d).

(** [for x in xs: acc = body(acc, x)] *)
Fixpoint for_each {A B} (body : B -> A -> action B) (acc : B) (xs : list A)
    : action B :=
  match xs with
  | [] => mret acc
  | x :: xs => acc ← body acc x; for_each body acc xs
  end.

(** Modelled from the spec: the method [lookout_exists], called by
    [add_or_recover_lookout] and defined nowhere in src: whether the
    state already has a transition for that code point. *)
Definition lookout_exists (self : nat) (lookout : Z) (d : dfa) : bool :=
  bool_decide (is_Some (get_next_state self lookout d)).

(** [target.current_state]: the attribute is set on no node that
    [automata_class] makes, and reading it there raises. *)
Definition current_state_of (target : nat) : action Z := fun d =>
  match current_state d !! target with
  | Some lookout => Done lookout d
  | None => Fails AttributeError d
  end.

(** [automata_class(lookout)], that is [self.__class__(lookout)]: the
    lookout is the first positional argument of
    [FiniteAutomata.__init__], [terminal_token]; [next_states] is the
    list [[]]. *)
Definition automata_class (lookout : Z) : action nat := fun d =>
  let '(new_state, g) := construct EmptyList (PyInt lookout) (graph d) in
  Done new_state (mkDfa g (current_state d)).

(** [self.next_states[lookout] = target]: an insertion into a
    dictionary; on the list [[]] an assignment to an index out of
    range. *)
Definition set_next_state (self : nat) (lookout : Z) (target : nat)
    : action unit := fun d =>
  match next_states <$> node self d with
  | Some (Dict _) =>
      Done tt
        (mkDfa (update self
                  (with_next_states (fun c =>
                     match c with
                     | Dict m => Dict (<[lookout := target]> m)
                     | EmptyList => EmptyList
                     end)) (graph d))
               (current_state d))
  | _ => Fails IndexError d
  end.

(** [self.next_states[lookout]], read. *)
Definition next_state_at (self : nat) (lookout : Z) : action nat := fun d =>
  match next_states <$> node self d with
  | Some (Dict m) =>
      match m !! lookout with
      | Some target => Done target d
      | None => Fails KeyError d
      end
  | _ => Fails IndexError d
  end.

(** [lookout_nodes[formated_lookout]], for a dictionary of the call. *)
Definition item (lookout_nodes : gmap Z nat) (lookout : Z) : action nat :=
  match lookout_nodes !! lookout with
  | Some target => mret target
  | None => raise KeyError
  end.

(** [list(formated_lookouts)] of a set: in the order of [elements]. *)
Definition get_ascii_list_from_rse_in (items : list sre_token) : list Z :=
  elements
    (foldl (fun formated_lookouts asciis =>
              match asciis with
              | range min max => formated_lookouts ∪ range_set min max
              | literal c => formated_lookouts ∪ {[ c ]}
              | _ => formated_lookouts
              end) (∅ : gset Z) items).

(** [get_formated_lookouts] on one sre token (a tuple). *)
Definition get_formated_lookouts_tuple (lookouts : sre_token) : list Z :=
  match lookouts with
  | literal c => [c]
  | in_ items => get_ascii_list_from_rse_in items
  | _ => []
  end.

(** [get_formated_lookouts] on a list of sre tokens. *)
Definition get_formated_lookouts_list (lookouts : list sre_token) : list Z :=
  foldl (fun formated_lookouts element =>
           formated_lookouts ++ get_formated_lookouts_tuple element)
        [] lookouts.

(** [{lookout: automata_class(lookout) for lookout in formated_lookouts}] *)
Definition lookout_nodes_for (formated_lookouts : list Z)
    : action (gmap Z nat) :=
  for_each (fun lookout_nodes lookout =>
              new_state ← automata_class lookout;
              mret (<[lookout := new_state]> lookout_nodes))
           ∅ formated_lookouts.

(** [lookout_nodes.values()].  Python 2 lists the values in the order of
    its hash table; the order taken here is the one of [map_to_list], and
    the properties below do not depend on it. *)
Definition values (lookout_nodes : gmap Z nat) : list nat :=
  (map_to_list lookout_nodes).*2.

(** [if not node.lookout_exists(k): node.next_states[k] = lookout_nodes[k]] *)
Definition link (node : nat) (lookout_nodes : gmap Z nat)
    (formated_lookout : Z) : action unit :=
  found ← read (lookout_exists node formated_lookout);
  if negb found
  then target ← item lookout_nodes formated_lookout;
       set_next_state node formated_lookout target
  else mret tt.

(** The two nested [for] loops that hang one layer under [node_layer]. *)
Definition link_layer (node_layer : list nat) (formated_lookouts : list Z)
    (lookout_nodes : gmap Z nat) : action unit :=
  for_each (fun _ node =>
              for_each (fun _ formated_lookout =>
                          link node lookout_nodes formated_lookout)
                       tt formated_lookouts)
           tt node_layer.

(** [count] turns of a [while] loop that builds one layer per turn and
    extends [terminal_layers] with it. *)
Fixpoint chain_layers (count : nat) (formated_lookouts : list Z)
    (node_layer terminal_layers : list nat)
    : action (list nat * list nat) :=
  match count with
  | O => mret (node_layer, terminal_layers)
  | S count' =>
      lookout_nodes ← lookout_nodes_for formated_lookouts;
      link_layer node_layer formated_lookouts lookout_nodes;;
      chain_layers count' formated_lookouts (values lookout_nodes)
        (terminal_layers ++ values lookout_nodes)
  end.

(** "link the final layer of nodes between themselves":
    [if not node.lookout_exists(target.current_state):
       node.next_states[target.current_state] = target] *)
Definition link_clique (node_layer : list nat) : action unit :=
  for_each (fun _ node =>
              for_each (fun _ target =>
                          lookout ← current_state_of target;
                          found ← read (lookout_exists node lookout);
                          if negb found
                          then lookout ← current_state_of target;
                               set_next_state node lookout target
                          else mret tt)
                       tt node_layer)
           tt node_layer.

(** "Add node corresponding to empty string" *)
Definition empty_state_of (self : nat) : action nat :=
  found ← read (lookout_exists self (-1));
  if negb found
  then empty_state ← automata_class (-1);
       set_next_state self (-1) empty_state;;
       mret empty_state
  else next_state_at self (-1).

(** [self.max_repeat_handled] *)
Definition max_repeat_handled_of (self : nat) (d : dfa) : Z :=
  match node self d with
  | Some s => max_repeat_handled s
  | None => default_max_repeat_handled
  end.

(** One turn of the loop of the last branch:
    [if not self.lookout_exists(k): self.next_states[k] = automata_class(k)]
    then [next_states.append(self.next_states[k])]. *)
Definition recover_or_add (self : nat) (next_states : list nat)
    (formated_lookout : Z) : action (list nat) :=
  found ← read (lookout_exists self formated_lookout);
  (if negb found
   then new_state ← automata_class formated_lookout;
        set_next_state self formated_lookout new_state
   else mret tt);;
  target ← next_state_at self formated_lookout;
  mret (next_states ++ [target]).

(** "Adding a single layer of states, no repetition involved" *)
Definition add_single_layer (self : nat) (formated_lookouts : list Z)
    : action (list nat) :=
  for_each (recover_or_add self) [] formated_lookouts.

Definition add_or_recover_lookout (self : nat) (lookout : sre_token)
    : action (list nat) :=
  match lookout with
  | max_repeat min_repeat max_repeat_ lookout =>
      let formated_lookouts := get_formated_lookouts_list lookout in
      handled ← read (max_repeat_handled_of self);
      if (0 <? min_repeat) && (handled <? max_repeat_) then
        (* 1) n to inf *)
        '(node_layer, _) ←
          chain_layers (Z.to_nat min_repeat) formated_lookouts [self] [];
        link_clique node_layer;;
        mret node_layer
      else if (min_repeat =? 0) && (handled <? max_repeat_) then
        (* 2) 0 to inf *)
        empty_state ← empty_state_of self;
        nodes_to_loop ←
          for_each (fun nodes_to_loop formated_lookout =>
                      lookout_nodes ← lookout_nodes_for formated_lookouts;
                      link self lookout_nodes formated_lookout;;
                      target ← item lookout_nodes formated_lookout;
                      mret (nodes_to_loop ++ [target]))
                   [] formated_lookouts;
        link_clique nodes_to_loop;;
        mret (nodes_to_loop ++ [empty_state])
      else if (0 <? min_repeat) && (max_repeat_ <=? handled) then
        (* 3) n to m *)
        '(node_layer, _) ←
          chain_layers (Z.to_nat min_repeat) formated_lookouts [self] [];
        '(_, terminal_layers) ←
          chain_layers (Z.to_nat (max_repeat_ - min_repeat))
            formated_lookouts node_layer node_layer;
        mret terminal_layers
      else if (min_repeat =? 0) && (max_repeat_ <=? handled) then
        (* 4) 0 to m *)
        empty_state ← empty_state_of self;
        '(_, terminal_layers) ←
          chain_layers (Z.to_nat max_repeat_) formated_lookouts
            [self; empty_state] [];
        mret terminal_layers
      else mret []
  | _ => add_single_layer self (get_formated_lookouts_tuple lookout)
  end.

(** [state.set_terminal_token(token)] on the object in the store. *)
Definition set_terminal (state : nat) (token : token_value) (d : dfa) : dfa :=
  mkDfa (update state (fun s => set_terminal_token s token) (graph d))
        (current_state d).

(** One turn of the first loop of [add_rule]: the frontier after
    [lookout], from the frontier [current_states]. *)
Definition advance (current_states : list nat) (lookout : sre_token)
    : action (list nat) :=
  for_each (fun next_states current_state =>
              found ← add_or_recover_lookout current_state lookout;
              mret (next_states ++ found))
           [] current_states.

(** [add_rule], from [tokenized_regexp.data] on: the tokenizing call
    [parse_regexp] is Python's own [sre_parse]. *)
Definition add_rule (self : nat) (tokenized_regexp : list sre_token)
    (token : token_value) : action unit :=
  current_states ← for_each advance [self] tokenized_regexp;
  for_each (fun _ current_state => modify (set_terminal current_state token))
           tt current_states.

Definition build (self : nat)
    (rules : list (list sre_token * token_value)) : action unit :=
  for_each (fun _ '(rule, token) => add_rule self rule token) tt rules.

(** A fresh [LexerDFA(max_handled_repeat=...)], as
    [FiniteAutomata.__init__] leaves it. *)
Definition start (max_handled_repeat : option Z) : dfa :=
  mkDfa (start_store EmptyList max_handled_repeat) ∅.

(** Arguments [recover_lookout] may be called with. *)
Inductive pyobj := OInt (z : Z) | OStr (s : string) | OOther.

Inductive lookout_arg :=
| AStr (s : string)
| ATuple (items : list pyobj)
| AInt (z : Z)
| AOther.

Definition format_char_to_ascii (char : ascii) : Z :=
  Z.of_N (N_of_ascii char).

(** [dict.get] on a dictionary whose keys are ints: a tuple is equal to
    none of them. *)
Definition dict_get (next_states : table) (key : lookout_arg) : option nat :=
  match key with
  | AInt z => next_states !! z
  | _ => None
  end.

(** [recover_lookout], on a state whose [next_states] is a dictionary. *)
Definition recover_lookout (self : FiniteAutomata table)
    (lookout : lookout_arg) : result (option nat) :=
  lookout ←
    match lookout with
    | AStr s =>
        match s with
        | String char EmptyString => Returns (AInt (format_char_to_ascii char))
        | _ => Raises LookoutMustBeSingleCharacter
        end
    | ATuple items =>
        match items with
        | [] => Raises IndexError
        | OStr "literal" :: rest =>
            match rest with
            | [] => Raises IndexError
            | OInt _ :: _ => Returns lookout
            | _ :: _ => Raises LookoutTupleMissFormated
            end
        | _ :: _ => Raises LookoutTupleMissFormated
        end
    | AInt _ => Returns lookout
    | AOther => Raises LookoutMustBeSingleCharacter
    end;
  let next_state := dict_get (next_states self) lookout in
  Returns (match next_state with
           | None => next_states self !! (-1)
           | Some _ => next_state
           end).

End LexerDFA.

(** ** Vocabulary of the properties *)

(** A stream of 'literal' tokens, and the chain of 'single' nodes that
    reads it before continuing as [next]. *)
Definition literals (cs : list Z) : list sre_token := literal <$> cs.

Fixpoint chain (cs : list Z) (next : RegexpTree) : RegexpTree :=
  match cs with
  | [] => next
  | c :: cs' => single c c (chain cs' next)
  end.

(** The tree of [Repeat(0, m, sub)] as the translator builds it for a
    stream [sub] of literals: a union of the tree for [m - 1] repeats and
    of one copy of [sub] followed by the tree for [m - 1] repeats. *)
Fixpoint repeat_tree (cs : list Z) (m : nat) : RegexpTree :=
  match m with
  | O => NoTree
  | S k => union (repeat_tree cs k) (chain cs (repeat_tree cs k)) NoTree
  end.

(** The same in the spec's words, a right-nested optional choice: one
    more copy of [sub] followed by the tree for [m - 1] repeats, or
    nothing. *)
Fixpoint nested_optional (cs : list Z) (m : nat) : RegexpTree :=
  match m with
  | O => NoTree
  | S k => union NoTree (chain cs (nested_optional cs k)) NoTree
  end.

(** Tags no branch of [sre_to_regexp_tree] does anything for. *)
Definition unrecognized (token : sre_token) : bool :=
  match token with
  | at_ _ | other _ => true
  | _ => false
  end.

(** The translator returns [t] on [sre_regexp], given budget enough. *)
Definition translates (max_handled_repeat : Z) (sre_regexp : list sre_token)
    (t : RegexpTree) : Prop :=
  exists fuel, sre_to_regexp_tree fuel sre_regexp max_handled_repeat = Returns t.

(** Two intervals in this order leave a code point free between them. *)
Definition apart (i1 i2 : Z * Z) : Prop := i1.2 + 1 < i2.1.

Definition covers (l : list (Z * Z)) (x : Z) : Prop :=
  exists i, i ∈ l /\ i.1 <= x <= i.2.

(** The DFA has a transition from [s] to [t] on [k]. *)
Definition transition (d : LexerDFA.dfa) (s : nat) (k : Z) (t : nat) : Prop :=
  LexerDFA.get_next_state s k d = Some t.

(** Every node of the store was given its id by the counter. *)
Definition well_formed (d : LexerDFA.dfa) : Prop :=
  map_Forall (fun n _ => (n < ids (LexerDFA.graph d))%nat)
             (nodes (LexerDFA.graph d)).

(** The lookouts [add_or_recover_lookout] handles in its last branch,
    "Adding a single layer of states, no repetition involved". *)
Definition single_layer (lookout : sre_token) : bool :=
  match lookout with
  | max_repeat _ _ _ => false
  | _ => true
  end.

(** The code points of a list of intervals. *)
Definition intervals_to_set (l : list (Z * Z)) : gset Z :=
  ⋃ ((fun i => range_set i.1 i.2) <$> l).

(** The text made of the characters of code points [cs]. *)
Fixpoint text_of (cs : list Z) : string :=
  match cs with
  | [] => EmptyString
  | c :: cs' => String (ascii_of_N (Z.to_N c)) (text_of cs')
  end.

(** Trees [print_regexp] can print: code points that [chr] takes, no
    'union' with both branches absent, no 'kleene' without pattern. *)
Fixpoint printable (t : RegexpTree) : bool :=
  match t with
  | NoTree => false
  | single min_ascii max_ascii next =>
      (0 <=? min_ascii) && (min_ascii <? 256) &&
      (0 <=? max_ascii) && (max_ascii <? 256) &&
      match next with NoTree => true | _ => printable next end
  | union fst snd next =>
      match fst, snd with
      | NoTree, _ => printable snd
      | _, NoTree => printable fst
      | _, _ => printable fst && printable snd
      end &&
      match next with NoTree => true | _ => printable next end
  | kleene pattern next =>
      printable pattern &&
      match next with NoTree => true | _ => printable next end
  end.

(** Every node of a store was given its id by the counter. *)
Definition store_wf {E} (h : store E) : Prop :=
  map_Forall (fun n _ => (n < ids h)%nat) (nodes h).

(** Number of states [LexerNFA.add_rule] constructs for a tree: two per
    node, the continuation of a 'union' not counted. *)
Fixpoint states_of (regexp : RegexpTree) : nat :=
  match regexp with
  | NoTree => 0
  | single _ _ next => 2 + states_of next
  | union fst snd _ => 2 + states_of fst + states_of snd
  | kleene pattern next => 2 + states_of pattern + states_of next
  end.

(** The edge [LexerNFA.add_rule] hangs on the state it is called on:
    none for the absent tree, an empty transition to [first] otherwise. *)
Definition entry_edge (regexp : RegexpTree) (first : nat)
    : list ((Z * Z) * nat) :=
  match regexp with
  | NoTree => []
  | _ => [(EMPTY, first)]
  end.

(** [grown h h' self k added]: from [h] to [h'], [k] states were
    constructed, none of them terminal; [self] received the edges [added]
    after the ones it had; no other state of [h] changed. *)
Record grown (h h' : store (list ((Z * Z) * nat))) (self k : nat)
    (added : list ((Z * Z) * nat)) : Prop := {
  gr_ids : ids h' = (ids h + k)%nat;
  gr_wf : store_wf h';
  gr_frame : forall n, (n < ids h)%nat -> n <> self ->
    nodes h' !! n = nodes h !! n;
  gr_self : nodes h' !! self =
    with_next_states (fun l => l ++ added) <$> nodes h !! self;
  gr_new : forall n, (ids h <= n < ids h')%nat ->
    exists st, nodes h' !! n = Some st /\ terminal_token st = PyNone /\
               id st = n
}.

(** Reading the code points [cs] from state [s] along the transitions on
    record: the state reached, if every step has a transition. *)
Fixpoint run (d : LexerDFA.dfa) (s : nat) (cs : list Z) : option nat :=
  match cs with
  | [] => Some s
  | c :: cs' =>
      match LexerDFA.get_next_state s c d with
      | Some t => run d t cs'
      | None => None
      end
  end.

(** The store a call of [automata_class] leaves, and the store the
    write [self.next_states[lookout] = target] leaves when it succeeds. *)
Definition constructed (lookout : Z) (d : LexerDFA.dfa) : LexerDFA.dfa :=
  LexerDFA.mkDfa
    (construct LexerDFA.EmptyList (PyInt lookout) (LexerDFA.graph d)).2
    (LexerDFA.current_state d).

Definition linked (self : nat) (lookout : Z) (target : nat)
    (d : LexerDFA.dfa) : LexerDFA.dfa :=
  LexerDFA.mkDfa
    (update self
       (with_next_states (fun c =>
          match c with
          | LexerDFA.Dict m => LexerDFA.Dict (<[lookout := target]> m)
          | LexerDFA.EmptyList => LexerDFA.EmptyList
          end)) (LexerDFA.graph d))
    (LexerDFA.current_state d).

(** [recovered self m d ks found d']: what the last branch of
    [add_or_recover_lookout] has done when it has gone through the
    lookouts [ks] on a state [self] that held the dictionary [m] in
    [d], handing back [found] and leaving [d']. *)
Record recovered (self : nat) (m : LexerDFA.table) (d : LexerDFA.dfa)
    (ks : list Z) (found : list nat) (d' : LexerDFA.dfa) : Prop := {
  rc_wf : well_formed d';
  rc_ids : (ids (LexerDFA.graph d) <= ids (LexerDFA.graph d'))%nat;
  rc_found : Forall2 (transition d' self) ks found;
  rc_old : forall k t, m !! k = Some t -> transition d' self k t;
  rc_frame : forall n, n <> self -> (n < ids (LexerDFA.graph d))%nat ->
    LexerDFA.node n d' = LexerDFA.node n d;
  rc_new : forall n,
    (ids (LexerDFA.graph d) <= n < ids (LexerDFA.graph d'))%nat ->
    exists k, k ∈ ks /\ m !! k = None /\ transition d' self k n /\
              LexerDFA.node n d' =
                Some (init n LexerDFA.EmptyList (PyInt k) None);
  rc_made : forall k, k ∈ ks -> m !! k = None ->
    exists n,
      (ids (LexerDFA.graph d) <= n < ids (LexerDFA.graph d'))%nat /\
      transition d' self k n /\
      LexerDFA.node n d' = Some (init n LexerDFA.EmptyList (PyInt k) None)
}.


(** * Properties *)

(** ** The terminal slot *)

Section TerminalFacts.
Context {E : Type}.
Implicit Type self : FiniteAutomata E.

Lemma with_terminal_same self : with_terminal self (terminal_token self) = self.
Proof. by destruct self. Qed.

Lemma terminal_exists_truthy self :
  terminal_exists self = truthy (terminal_token self).
Proof. unfold terminal_exists. by destruct (truthy _). Qed.

(** A slot holding a truthy value is never written again. *)
Lemma set_terminal_token_set self tok :
  terminal_exists self = true -> set_terminal_token self tok = self.
Proof. unfold set_terminal_token. by intros ->. Qed.

Lemma set_terminal_token_unset self tok :
  terminal_exists self = false ->
  terminal_token (set_terminal_token self tok) =
    if is_none tok then IGNORED else tok.
Proof.
  rewrite terminal_exists_truthy.
  unfold set_terminal_token, set_terminal_to_ignored.
  rewrite terminal_exists_truthy. intros ->; simpl.
  by destruct (is_none tok).
Qed.

Lemma set_terminal_token_next_states self tok :
  next_states (set_terminal_token self tok) = next_states self.
Proof.
  unfold set_terminal_token, set_terminal_to_ignored.
  by repeat (case_match; simpl).
Qed.

(** C10: a falsy label ([""], [0]) stored by [set_terminal_token] does
    not make the state terminal: [terminal_exists] is false,
    [get_terminal_token] raises [NodeIsNotTerminalState], and the next
    [set_terminal_token] writes over the label (with the new token, or
    with [IGNORED] when the new token is [None]). *)
Theorem falsy_label_is_overwritten self (label : token_value) :
  terminal_exists self = false ->
  is_none label = false ->
  truthy label = false ->
  let s := set_terminal_token self label in
  terminal_token s = label /\
  terminal_exists s = false /\
  get_terminal_token s = Raises NodeIsNotTerminalState /\
  forall tok, terminal_token (set_terminal_token s tok) =
                if is_none tok then IGNORED else tok.
Proof.
  intros Hfree Hnone Hfalsy s.
  assert (Hs : terminal_token s = label).
  { subst s. rewrite set_terminal_token_unset by done. by rewrite Hnone. }
  assert (Hex : terminal_exists s = false).
  { by rewrite terminal_exists_truthy, Hs. }
  repeat split; try done.
  - unfold get_terminal_token. by rewrite Hex.
  - intros tok. by apply set_terminal_token_unset.
Qed.
End TerminalFacts.

Lemma falsy_label_is_overwritten_witness :
  let s := set_terminal_token (init 0%nat tt PyNone None) (PyStr "") in
  terminal_token s = PyStr "" /\
  terminal_exists s = false /\
  get_terminal_token s = Raises NodeIsNotTerminalState /\
  forall tok, terminal_token (set_terminal_token s tok) =
                if is_none tok then IGNORED else tok.
Proof.
  apply (falsy_label_is_overwritten (init 0%nat tt PyNone None) (PyStr ""));
    reflexivity.
Defined.

(** C4: what the code does where the claim says the first rule wins.  A
    state tagged with the empty label is tagged again by the next rule.
    And the DFA of the claim's example tags no state: [build] on
    [("a","FIRST"), ("a","SECOND")] raises in the first rule, when the
    transition on ['a'] is written into the list [[]] that the start
    state holds (in src the call of [lookout_exists], defined nowhere,
    raises one step before); the store it leaves has the start state,
    untagged and without transition, and the state constructed for
    ['a'], which holds 97. *)
Theorem first_rule_does_not_always_win :
  terminal_token
    (set_terminal_token
       (set_terminal_token (init 0%nat tt PyNone None) (PyStr ""))
       (PyStr "SECOND")) = PyStr "SECOND" /\
  exists d,
    LexerDFA.build 0%nat
      [([literal 97], PyStr "FIRST"); ([literal 97], PyStr "SECOND")]
      (LexerDFA.start None) = LexerDFA.Fails IndexError d /\
    LexerDFA.get_next_state 0%nat 97 d = None /\
    terminal_token <$> LexerDFA.node 0%nat d = Some PyNone /\
    terminal_token <$> LexerDFA.node 1%nat d = Some (PyInt 97) /\
    ids (LexerDFA.graph d) = 2%nat.
Proof.
  split; [reflexivity|].
  eexists. split; [vm_compute; reflexivity|]. by vm_compute.
Qed.

(** ** [recover_lookout] *)

(** A single character or an int is looked up as that code point, with
    the [-1] transition as fallback. *)
Lemma recover_lookout_int (self : FiniteAutomata LexerDFA.table) (z : Z) :
  LexerDFA.recover_lookout self (LexerDFA.AInt z) =
    Returns (match next_states self !! z with
             | Some n => Some n
             | None => next_states self !! (-1)
             end).
Proof. unfold LexerDFA.recover_lookout; simpl. by destruct (_ !! z). Qed.

Lemma recover_lookout_char (self : FiniteAutomata LexerDFA.table) (c : ascii) :
  LexerDFA.recover_lookout self (LexerDFA.AStr (String c EmptyString)) =
    LexerDFA.recover_lookout self
      (LexerDFA.AInt (LexerDFA.format_char_to_ascii c)).
Proof. reflexivity. Qed.

(** C6: what the code does on tuples.  A well-shaped [('literal', n)] is
    accepted but stays a tuple, which is no key of [next_states]: the
    transition recorded for [n] is never returned, only the [-1] one; and
    the tuples [()] and [('literal',)] raise [IndexError], not
    [LookoutTupleMissFormated]. *)
Theorem recover_lookout_literal_tuple_misses
    (self : FiniteAutomata LexerDFA.table) (n : Z) :
  LexerDFA.recover_lookout self
      (LexerDFA.ATuple [LexerDFA.OStr "literal"; LexerDFA.OInt n]) =
    Returns (next_states self !! (-1)) /\
  LexerDFA.recover_lookout self (LexerDFA.ATuple []) = Raises IndexError /\
  LexerDFA.recover_lookout self (LexerDFA.ATuple [LexerDFA.OStr "literal"]) =
    Raises IndexError /\
  let s := mkState 0%nat ({[ 97 := 1%nat ]} : LexerDFA.table) PyNone 100 in
  LexerDFA.recover_lookout s (LexerDFA.AInt 97) = Returns (Some 1%nat) /\
  LexerDFA.recover_lookout s (LexerDFA.AStr "a") = Returns (Some 1%nat) /\
  LexerDFA.recover_lookout s
      (LexerDFA.ATuple [LexerDFA.OStr "literal"; LexerDFA.OInt 97]) =
    Returns None.
Proof. repeat split. Qed.

(** ** The NFA builder *)

(** C2: what [add_rule] does on a 'union' node.  The continuation [next]
    is not read: the fragment is the one of the same union without
    continuation, and its [last] is the joined state.  For
    [Union(a, b, next = c)] that state, 6, has no outgoing edge and no
    state of the automaton has an edge for ['c']. *)
Theorem union_continuation_is_not_compiled :
  (forall fst snd next self h,
     LexerNFA.add_rule (union fst snd next) self h =
     LexerNFA.add_rule (union fst snd NoTree) self h) /\
  let regexp := union (single 97 97 NoTree) (single 98 98 NoTree)
                      (single 99 99 NoTree) in
  let '((first, last), h) :=
    LexerNFA.add_rule regexp 0%nat (start_store [] None) in
  first = 1%nat /\ last = 6%nat /\
  LexerNFA.get_transition_for_empty_string 3%nat h = [6%nat] /\
  LexerNFA.get_transition_for_empty_string 5%nat h = [6%nat] /\
  LexerNFA.transitions last h = [] /\
  Forall (fun n => LexerNFA.get_transition_states_for_lookout n 99 h = [])
         (map_to_list (nodes h)).*1.
Proof.
  split; [reflexivity|]. vm_compute.
  repeat split. repeat constructor.
Qed.

(** ** The translator *)

Lemma bind_Returns {A B} (r : result A) (k : A -> result B) (b : B) :
  r ≫= k = Returns b <-> exists a, r = Returns a /\ k a = Returns b.
Proof.
  destruct r; simpl; split; try done; try (by intros (? & ? & ?)).
  - eauto.
  - by intros (? & [= <-] & ?).
Qed.

(** The bodies are monotone in the translator they call. *)
Section TranslatorMono.
Variables recur recur' : list sre_token -> Z -> result RegexpTree.
Hypothesis recur_le :
  forall s c t, recur s c = Returns t -> recur' s c = Returns t.

Ltac step :=
  match goal with
  | H : _ ≫= _ = Returns _ |- _ =>
      apply bind_Returns in H as (? & ? & H)
  | |- _ ≫= _ = Returns _ => apply bind_Returns; eexists; split; [eauto|]
  end.

Lemma make_regexp_intervals_union_mono intervals next c t :
  make_regexp_intervals_union recur intervals next c = Returns t ->
  make_regexp_intervals_union recur' intervals next c = Returns t.
Proof.
  revert next t. induction intervals as [|[lo hi] [|i rest] IH];
    intros next t H; [done| |].
  - simpl in *. repeat step. done.
  - cbn [make_regexp_intervals_union] in *. repeat step. done.
Qed.

Lemma make_regexp_sre_union_mono regexp_union next c t :
  make_regexp_sre_union recur regexp_union next c = Returns t ->
  make_regexp_sre_union recur' regexp_union next c = Returns t.
Proof.
  revert next t. induction regexp_union as [|fst_exp [|alt rest] IH];
    intros next t H; [done| |].
  - simpl in *. eauto.
  - cbn [make_regexp_sre_union] in *. repeat step. done.
Qed.

Lemma sre_to_regexp_tree_body_mono s c t :
  sre_to_regexp_tree_body recur s c = Returns t ->
  sre_to_regexp_tree_body recur' s c = Returns t.
Proof.
  destruct s as [|tok tail]; [done|].
  destruct tok; simpl; intros H;
    try (repeat step; done);
    eauto using make_regexp_intervals_union_mono, make_regexp_sre_union_mono.
  repeat case_match; eauto. repeat step. done.
Qed.
End TranslatorMono.

(** More budget never changes a returned tree. *)
Lemma sre_to_regexp_tree_mono fuel fuel' s c t :
  (fuel <= fuel')%nat ->
  sre_to_regexp_tree fuel s c = Returns t ->
  sre_to_regexp_tree fuel' s c = Returns t.
Proof.
  revert fuel' s c t. induction fuel as [|fuel IH]; intros fuel' s c t Hle H;
    [done|].
  destruct fuel' as [|fuel']; [lia|]. simpl in *.
  eapply sre_to_regexp_tree_body_mono; [|exact H].
  intros s' c' t'. apply IH. lia.
Qed.

Lemma translates_nil c : translates c [] NoTree.
Proof. by exists 1%nat. Qed.

Lemma translates_literal c x tail t :
  translates default_max_repeat_handled tail t ->
  translates c (literal x :: tail) (single x x t).
Proof. intros [fuel H]. exists (S fuel). simpl. by rewrite H. Qed.

Lemma translates_literals c x cs tail t :
  translates default_max_repeat_handled tail t ->
  translates c (literals (x :: cs) ++ tail) (chain (x :: cs) t).
Proof.
  intros H. revert c x. induction cs as [|y cs IH]; intros c x.
  - by apply translates_literal.
  - apply translates_literal, IH.
Qed.

(** One unfolding of [Repeat(0, max, sub)] with [1 <= max <= cutoff]: a
    union of the trees of the two alternatives the translator makes up,
    collapsed when both are absent. *)
Lemma translates_bounded_repeat c max sub tail t1 t2 tn :
  1 <= max <= c ->
  translates c [max_repeat 0 (max - 1) sub] t1 ->
  translates c (sub ++ [max_repeat 0 (max - 1) sub]) t2 ->
  translates c tail tn ->
  translates c (max_repeat 0 max sub :: tail)
    (match t1, t2 with
     | NoTree, NoTree => tn
     | _, _ => union t1 t2 tn
     end).
Proof.
  intros Hmax [f1 H1] [f2 H2] [f3 H3].
  set (f := Nat.max (Nat.max f1 f2) f3).
  exists (S (S f)).
  apply (sre_to_regexp_tree_mono _ f) in H1, H2, H3; try (unfold f; lia).
  cbn [sre_to_regexp_tree sre_to_regexp_tree_body].
  replace (0 <? 0) with false by done.
  replace ((1 <=? max) && (max <=? c)) with true
    by (symmetry; apply andb_true_iff; lia).
  cbn [sre_to_regexp_tree sre_to_regexp_tree_body make_regexp_sre_union].
  rewrite H1, H2, H3. simpl. by destruct t1, t2.
Qed.

Lemma translates_zero_repeat c sub tail tn :
  translates c tail tn -> translates c (max_repeat 0 0 sub :: tail) tn.
Proof. intros [f H]. exists (S f). simpl. done. Qed.

Lemma tree_size_chain cs t :
  tree_size (chain cs t) = (length cs + tree_size t)%nat.
Proof. induction cs; simpl; lia. Qed.

(** The right-nested optional choice would be linear in [m]. *)
Lemma tree_size_nested_optional cs m :
  tree_size (nested_optional cs m) = (m * S (length cs))%nat.
Proof.
  induction m as [|m IH]; simpl; [done|].
  rewrite tree_size_chain. lia.
Qed.

Lemma tree_size_repeat_tree cs m :
  (tree_size (repeat_tree cs m) + S (length cs) = 2 ^ m * S (length cs))%nat.
Proof.
  induction m as [|m IH]; simpl; [lia|].
  rewrite tree_size_chain. nia.
Qed.

(** Over a stream of one or more literals the unfolding goes all the way
    down, whatever cutoff the first call was given (the translator falls
    back to the default cutoff after a literal). *)
Lemma translates_repeat_tree (c : Z) (cs : list Z) (m : nat) :
  Z.of_nat m <= default_max_repeat_handled ->
  forall cutoff, Z.of_nat m <= cutoff ->
  translates cutoff [max_repeat 0 (Z.of_nat m) (literals (c :: cs))]
    (repeat_tree (c :: cs) m).
Proof.
  induction m as [|m IH]; intros Hdef cutoff Hcut.
  - apply translates_zero_repeat, translates_nil.
  - assert (Hm : Z.of_nat (S m) - 1 = Z.of_nat m) by lia.
    pose proof (translates_bounded_repeat cutoff (Z.of_nat (S m))
                  (literals (c :: cs)) [] (repeat_tree (c :: cs) m)
                  (chain (c :: cs) (repeat_tree (c :: cs) m)) NoTree) as H.
    rewrite Hm in H. cbn [repeat_tree].
    assert (Hm' : Z.of_nat m <= default_max_repeat_handled) by lia.
    specialize (H ltac:(lia) (IH Hm' cutoff ltac:(lia))
                  (translates_literals cutoff c cs _ _
                     (IH Hm' default_max_repeat_handled Hm'))
                  (translates_nil cutoff)).
    revert H. cbn [chain]. by destruct (repeat_tree (c :: cs) m).
Qed.

(** C3, as the code has it: [Repeat(0, max, sub)] with
    [1 <= max <= cutoff] becomes the union of two trees, the one of
    [Repeat(0, max - 1, sub)] alone and the one of a copy of [sub]
    followed by [Repeat(0, max - 1, sub)], continued by the tree of the
    rest of the stream (the rest alone when both trees are absent); at
    [max = 0] the token is dropped.  The level below is thus built twice:
    for a stream [sub] of one or more literals and [m] repeats, [m] up to
    the cutoff and up to the default cutoff 100, the tree is [repeat_tree]
    and has [(2 ^ m - 1) * (length sub + 1)] nodes. *)
Theorem bounded_repeat_doubles
    (cutoff max : Z) (sub tail : list sre_token) (t1 t2 tn : RegexpTree)
    (c : Z) (cs : list Z) (m : nat) :
  1 <= max <= cutoff ->
  translates cutoff [max_repeat 0 (max - 1) sub] t1 ->
  translates cutoff (sub ++ [max_repeat 0 (max - 1) sub]) t2 ->
  translates cutoff tail tn ->
  Z.of_nat m <= cutoff ->
  Z.of_nat m <= default_max_repeat_handled ->
  translates cutoff (max_repeat 0 max sub :: tail)
    (match t1, t2 with
     | NoTree, NoTree => tn
     | _, _ => union t1 t2 tn
     end) /\
  translates cutoff (max_repeat 0 0 sub :: tail) tn /\
  translates cutoff [max_repeat 0 (Z.of_nat m) (literals (c :: cs))]
    (repeat_tree (c :: cs) m) /\
  (tree_size (repeat_tree (c :: cs) m) + S (length (c :: cs)) =
     2 ^ m * S (length (c :: cs)))%nat.
Proof.
  intros Hmax H1 H2 Hn Hcut Hdef. repeat split.
  - by apply translates_bounded_repeat.
  - by apply translates_zero_repeat.
  - by apply translates_repeat_tree.
  - apply tree_size_repeat_tree.
Qed.

Lemma bounded_repeat_doubles_witness :
  translates 100 (max_repeat 0 1 [subpattern [literal 98]] :: [literal 99])
    (union NoTree (single 98 98 NoTree) (single 99 99 NoTree)) /\
  translates 100 (max_repeat 0 0 [subpattern [literal 98]] :: [literal 99])
    (single 99 99 NoTree) /\
  translates 100 [max_repeat 0 (Z.of_nat 3) (literals [97])]
    (repeat_tree [97] 3) /\
  (tree_size (repeat_tree [97%Z] 3) + S (length [97%Z]) =
     2 ^ 3 * S (length [97%Z]))%nat.
Proof.
  apply (bounded_repeat_doubles 100 1 [subpattern [literal 98]] [literal 99]
           NoTree (single 98 98 NoTree) (single 99 99 NoTree) 97 [] 3).
  - lia.
  - exists 2%nat. reflexivity.
  - exists 4%nat. reflexivity.
  - exists 2%nat. reflexivity.
  - lia.
  - unfold default_max_repeat_handled. lia.
Defined.

(** C3 as stated fails at [max = 2]: the tree of [a{0,2}] is not the
    right-nested optional choice, whose first branch is empty, and the
    sizes for [max = 1, 2, 3] are 2, 6 and 14, which no linear growth
    gives. *)
Lemma bounded_repeat_not_nested_optional :
  sre_to_regexp_tree 9 [max_repeat 0 2 [literal 97]] 100 =
    Returns (repeat_tree [97] 2) /\
  repeat_tree [97] 2 <> nested_optional [97] 2 /\
  (forall t, translates 100 [max_repeat 0 2 [literal 97]] t ->
             t <> nested_optional [97] 2) /\
  tree_size <$> sre_to_regexp_tree 12 [max_repeat 0 1 [literal 97]] 100 =
    Returns 2%nat /\
  tree_size <$> sre_to_regexp_tree 12 [max_repeat 0 2 [literal 97]] 100 =
    Returns 6%nat /\
  tree_size <$> sre_to_regexp_tree 12 [max_repeat 0 3 [literal 97]] 100 =
    Returns 14%nat.
Proof.
  split; [reflexivity|]. split; [discriminate|]. split; [|done].
  intros t [fuel H].
  assert (H6 : sre_to_regexp_tree 9 [max_repeat 0 2 [literal 97]] 100 =
               Returns (repeat_tree [97] 2)) by reflexivity.
  destruct (Nat.le_ge_cases fuel 9) as [Hle|Hle].
  - apply (sre_to_regexp_tree_mono _ 9) in H; [|done].
    rewrite H6 in H. by inversion H.
  - apply (sre_to_regexp_tree_mono _ fuel) in H6; [|done].
    rewrite H in H6. by inversion H6.
Qed.

(** C7, as the code has it: a token whose tag the translator does not
    know ('at' included) raises nothing.  Reached after a prefix of
    literals, it ends the translation: the tree is the one of the prefix
    alone, and neither the token nor anything after it is translated. *)
Theorem unrecognized_token_truncates
    (fuel : nat) (cutoff : Z) (cs : list Z) (token : sre_token)
    (tail : list sre_token) :
  unrecognized token = true ->
  (length cs < fuel)%nat ->
  sre_to_regexp_tree fuel (literals cs ++ token :: tail) cutoff =
    Returns (chain cs NoTree).
Proof.
  intros Htok. revert fuel cutoff.
  induction cs as [|c cs IH]; intros [|fuel] cutoff Hlen; simpl in *; try lia.
  - by destruct token.
  - unfold literals in IH. rewrite IH by lia. done.
Qed.

Lemma unrecognized_token_truncates_witness :
  sre_to_regexp_tree 3
    (literals [97; 98] ++ at_ "at_end" :: [literal 99]) 100 =
    Returns (chain [97; 98] NoTree).
Proof.
  apply (unrecognized_token_truncates 3 100 [97; 98] (at_ "at_end") [literal 99]).
  - reflexivity.
  - simpl. lia.
Defined.

(** C7 as stated fails on [[('at', 'at_beginning'), ('literal', 97)]]:
    the translator returns [None], whatever the budget. *)
Lemma at_token_raises_nothing :
  sre_to_regexp_tree 2 [at_ "at_beginning"; literal 97] 100 = Returns NoTree /\
  ~ (exists fuel,
       raises (sre_to_regexp_tree fuel [at_ "at_beginning"; literal 97] 100)).
Proof.
  split; [reflexivity|]. intros [[|fuel] [e He]]; discriminate.
Qed.

(** ** The printer *)

(** C8: what the code does where the claim promises a structural round
    trip.  The tree of [a(bb|c)] is a 'single' followed by a 'union'; it
    prints as [a(bb)|(c)], the branches in parentheses but not the union,
    and the tokens of that text translate to a tree whose root is the
    'union'.  On the tree of [()*], a 'kleene' without pattern,
    [print_regexp] raises. *)
Theorem print_regexp_is_not_faithful :
  let t := single 97 97
             (union (single 98 98 (single 98 98 NoTree))
                    (single 99 99 NoTree) NoTree) in
  let reparsed :=
    [branch [[literal 97; subpattern [literal 98; literal 98]];
             [subpattern [literal 99]]]] in
  sre_to_regexp_tree 9
    [literal 97; subpattern [branch [[literal 98; literal 98]; [literal 99]]]]
    100 = Returns t /\
  print_regexp t = Returns "a(bb)|(c)" /\
  (exists t', sre_to_regexp_tree 9 reparsed 100 = Returns t' /\
              tags t' <> tags t /\
              tags t = [Tsingle; Tunion; Tsingle; Tsingle; Tsingle] /\
              tags t' = [Tunion; Tsingle; Tsingle; Tsingle; Tsingle]) /\
  (forall sre_parse,
     sre_parse "a(bb)|(c)" = Returns reparsed ->
     exists t', format_regexp sre_parse 9 "a(bb)|(c)" = Returns t' /\
                tags t' <> tags t) /\
  sre_to_regexp_tree 9 [max_repeat 0 65535 [subpattern []]] 100 =
    Returns (kleene NoTree NoTree) /\
  print_regexp (kleene NoTree NoTree) = Raises AttributeError /\
  print_regexp (union NoTree NoTree NoTree) = Raises AttributeError.
Proof.
  repeat split.
  - eexists. repeat split. discriminate.
  - intros sre_parse Hparse. unfold format_regexp. rewrite Hparse.
    eexists. split; [reflexivity|discriminate].
Qed.

(** ** The interval reducer *)

(** Intervals already closed are only ever appended to. *)
Lemma sweep_app rest min max interval_list :
  sweep rest min max interval_list = interval_list ++ sweep rest min max [].
Proof.
  revert min max interval_list.
  induction rest as [|a rest IH]; intros min max acc; simpl; [done|].
  case_match; [apply IH|].
  rewrite IH, (IH _ _ [_]). by rewrite <- app_assoc.
Qed.

Lemma StronglySorted_le_lt (l : list Z) :
  StronglySorted Z.le l -> NoDup l -> StronglySorted Z.lt l.
Proof.
  induction 1 as [|x l Hs IH Hall]; intros Hnd; constructor.
  - apply IH. by apply NoDup_cons in Hnd as [_ ?].
  - apply NoDup_cons in Hnd as [Hx _].
    rewrite Forall_forall in *. intros y Hy.
    assert (x <> y) by (intros ->; by apply Hx, list_elem_of_In).
    specialize (Hall y Hy). lia.
Qed.

(** The sweep from an open interval [(min, max)] over the strictly
    increasing values [rest], all above [max]. *)
Lemma sweep_spec rest : forall min max,
  min <= max ->
  StronglySorted Z.lt (max :: rest) ->
  let l := sweep rest min max [] in
  Forall (fun i => min <= i.1 /\ i.1 <= i.2) l /\
  StronglySorted apart l /\
  forall x, covers l x <-> (min <= x <= max \/ x ∈ rest).
Proof.
  induction rest as [|a rest IH]; intros min max Hmm Hs; simpl.
  - repeat split.
    + by repeat constructor.
    + repeat constructor.
    + intros (i & Hi & Hx). apply list_elem_of_singleton in Hi as ->. by left.
    + intros [Hx|Hx]; [|by apply elem_of_nil in Hx].
      exists (min, max). split; [apply list_elem_of_singleton|]; done.
  - apply StronglySorted_inv in Hs as [Hs Hall].
    pose proof Hall as Hall'.
    apply Forall_cons in Hall' as [Ha Hrest].
    destruct (Z.eqb_spec a (max + 1)) as [->|Hne].
    + destruct (IH min (max + 1)) as (Hlo & Hap & Hcov); [lia|done|].
      repeat split; try done.
      * intros Hx. apply Hcov in Hx as [Hx|Hx].
        -- destruct (decide (x = max + 1)) as [->|?].
           ++ right. apply elem_of_cons. by left.
           ++ left. lia.
        -- right. apply elem_of_cons. by right.
      * intros [Hx|Hx]; apply Hcov.
        -- left. lia.
        -- apply elem_of_cons in Hx as [->|Hx]; [left; lia|by right].
    + rewrite sweep_app. simpl.
      destruct (IH a a) as (Hlo & Hap & Hcov); [lia|done|].
      repeat split.
      * constructor; [simpl; lia|].
        eapply Forall_impl; [exact Hlo|]. simpl. intros i [? ?]. lia.
      * constructor; [done|].
        eapply Forall_impl; [exact Hlo|]. unfold apart. simpl.
        intros i [? ?]. lia.
      * intros (i & Hi & Hx). apply elem_of_cons in Hi as [->|Hi].
        -- by left.
        -- right. assert (Hc : covers (sweep rest a a []) x) by (by exists i).
           apply Hcov in Hc as [Hc|Hc]; apply elem_of_cons.
           ++ left. lia.
           ++ by right.
      * intros [Hx|Hx].
        -- exists (min, max). split; [apply elem_of_cons; by left|done].
        -- assert (Hc : covers (sweep rest a a []) x).
           { apply Hcov. apply elem_of_cons in Hx as [->|Hx]; [left; lia|by right]. }
           destruct Hc as (i & Hi & Hc). exists i. split; [|done].
           apply elem_of_cons. by right.
Qed.

(** C5: [set_to_intervals] returns intervals [(lo, hi)] with [lo <= hi],
    in increasing order, any two of them separated by at least one code
    point outside the set (so disjoint and not adjacent), whose union is
    exactly the set; the empty set gives the empty list. *)
Theorem set_to_intervals_exact (ascii_set : gset Z) :
  Forall (fun i => i.1 <= i.2) (set_to_intervals ascii_set) /\
  StronglySorted apart (set_to_intervals ascii_set) /\
  (forall x, x ∈ ascii_set <-> covers (set_to_intervals ascii_set) x) /\
  set_to_intervals ∅ = [].
Proof.
  assert (Hempty : set_to_intervals ∅ = []) by reflexivity.
  unfold set_to_intervals.
  pose proof (merge_sort_Permutation Z.le (elements ascii_set)) as Hperm.
  assert (Hs : StronglySorted Z.lt (merge_sort Z.le (elements ascii_set))).
  { apply StronglySorted_le_lt; [apply StronglySorted_merge_sort; apply _|].
    rewrite Hperm. apply NoDup_elements. }
  assert (Hin : forall x, x ∈ ascii_set <->
                          x ∈ merge_sort Z.le (elements ascii_set)).
  { intros x. by rewrite Hperm, elem_of_elements. }
  case_decide as Hsize.
  { apply size_empty_iff in Hsize.
    repeat split; try constructor; try done.
    - intros Hx. apply Hsize in Hx. by apply elem_of_empty in Hx.
    - intros (i & Hi & _). by apply elem_of_nil in Hi. }
  destruct (merge_sort Z.le (elements ascii_set)) as [|first rest] eqn:Hl.
  { exfalso. apply Hsize. apply size_empty_iff. intros x.
    rewrite Hin. split; [by intros ?%elem_of_nil|by intros ?%elem_of_empty]. }
  destruct (sweep_spec rest first first) as (Hlo & Hap & Hcov); [lia|done|].
  repeat split; try done.
  - eapply Forall_impl; [exact Hlo|]. by intros i [_ ?].
  - intros Hx. apply Hcov. apply Hin in Hx.
    apply elem_of_cons in Hx as [->|Hx]; [left; lia|by right].
  - intros Hx. apply Hcov in Hx. apply Hin. apply elem_of_cons.
    destruct Hx as [Hx|Hx]; [left; lia|by right].
Qed.

(** ** The DFA builder *)

Import LexerDFA.

Lemma bind_done {A B} (m : action A) (k : A -> action B) d a d' :
  m d = Done a d' -> (m ≫= k) d = k a d'.
Proof. unfold mbind, action_bind. by intros ->. Qed.

Lemma bind_fails {A B} (m : action A) (k : A -> action B) d e d' :
  m d = Fails e d' -> (m ≫= k) d = Fails e d'.
Proof. unfold mbind, action_bind. by intros ->. Qed.

Lemma node_update s f d cs n :
  node n (mkDfa (update s f (graph d)) cs) =
    if decide (s = n) then f <$> node s d else node n d.
Proof. unfold node, update; simpl. rewrite lookup_alter. by case_decide; subst. Qed.

Lemma well_formed_lt d n :
  well_formed d -> is_Some (node n d) -> (n < ids (graph d))%nat.
Proof. intros Hwf [st Hst]. exact (Hwf n st Hst). Qed.

Lemma node_fresh d : well_formed d -> node (ids (graph d)) d = None.
Proof.
  intros Hwf. destruct (node (ids (graph d)) d) eqn:Hn; [|done].
  pose proof (well_formed_lt d _ Hwf ltac:(by eexists)). lia.
Qed.

Lemma well_formed_update s f d cs :
  well_formed d -> well_formed (mkDfa (update s f (graph d)) cs).
Proof.
  intros Hwf n st Hn. change (node n (mkDfa (update s f (graph d)) cs) = Some st) in Hn.
  rewrite node_update in Hn. apply (well_formed_lt d n Hwf).
  case_decide; subst; [|by eexists].
  destruct (node n d); [by eexists|done].
Qed.

Lemma well_formed_start max_handled_repeat :
  well_formed (start max_handled_repeat).
Proof.
  unfold well_formed, start, start_store; simpl.
  apply map_Forall_singleton. lia.
Qed.

Lemma automata_class_done k d :
  automata_class k d = Done (ids (graph d)) (constructed k d).
Proof. done. Qed.

Lemma node_constructed k d n :
  node n (constructed k d) =
    if decide (ids (graph d) = n)
    then Some (init (ids (graph d)) EmptyList (PyInt k) None)
    else node n d.
Proof.
  unfold node, constructed, construct; simpl.
  rewrite lookup_insert. by case_decide.
Qed.

Lemma ids_constructed k d : ids (graph (constructed k d)) = S (ids (graph d)).
Proof. done. Qed.

Lemma well_formed_constructed k d :
  well_formed d -> well_formed (constructed k d).
Proof.
  intros Hwf n st Hn. change (node n (constructed k d) = Some st) in Hn.
  rewrite node_constructed in Hn. rewrite ids_constructed.
  case_decide; [lia|].
  pose proof (well_formed_lt d n Hwf ltac:(by eexists)). lia.
Qed.

Lemma get_next_state_constructed s k k' d :
  well_formed d ->
  get_next_state s k (constructed k' d) = get_next_state s k d.
Proof.
  intros Hwf. unfold get_next_state. rewrite node_constructed.
  case_decide; [subst s|done]. by rewrite node_fresh.
Qed.

Lemma get_next_state_dict self k d st m :
  node self d = Some st -> next_states st = Dict m ->
  get_next_state self k d = m !! k.
Proof. intros Hst Hm. unfold get_next_state. rewrite Hst. simpl. by rewrite Hm. Qed.

Lemma get_next_state_list self k d st :
  node self d = Some st -> next_states st = EmptyList ->
  get_next_state self k d = None.
Proof. intros Hst Hm. unfold get_next_state. rewrite Hst. simpl. by rewrite Hm. Qed.

(** A transition on record is read from a dictionary. *)
Lemma transition_inv d s k t :
  transition d s k t ->
  exists st m, node s d = Some st /\ next_states st = Dict m /\ m !! k = Some t.
Proof.
  unfold transition, get_next_state. destruct (node s d) as [st|]; [|done].
  simpl. destruct (next_states st) as [|m] eqn:Hm; [done|]. by exists st, m.
Qed.

Lemma node_linked self k t d n :
  node n (linked self k t d) =
    if decide (self = n)
    then with_next_states (fun c =>
           match c with
           | Dict m => Dict (<[k := t]> m)
           | EmptyList => EmptyList
           end) <$> node self d
    else node n d.
Proof. unfold linked. apply node_update. Qed.

Lemma set_next_state_dict self k t d st m :
  node self d = Some st -> next_states st = Dict m ->
  set_next_state self k t d = Done tt (linked self k t d).
Proof. intros Hst Hm. unfold set_next_state. by rewrite Hst; simpl; rewrite Hm. Qed.

Lemma set_next_state_list self k t d st :
  node self d = Some st -> next_states st = EmptyList ->
  set_next_state self k t d = Fails IndexError d.
Proof. intros Hst Hm. unfold set_next_state. by rewrite Hst; simpl; rewrite Hm. Qed.

Lemma next_state_at_recorded self k t d :
  transition d self k t -> next_state_at self k d = Done t d.
Proof.
  intros (st & m & Hst & Hm & Hk)%transition_inv.
  unfold next_state_at. by rewrite Hst; simpl; rewrite Hm, Hk.
Qed.

Lemma lookout_exists_recorded self k t d :
  transition d self k t -> lookout_exists self k d = true.
Proof.
  intros Ht. unfold lookout_exists. apply bool_decide_eq_true_2.
  rewrite Ht. by eexists.
Qed.

Lemma lookout_exists_none self k d :
  get_next_state self k d = None -> lookout_exists self k d = false.
Proof.
  intros Hn. unfold lookout_exists. apply bool_decide_eq_false_2.
  rewrite Hn. by intros [? ?].
Qed.

(** A turn of the last branch on a lookout that has a transition. *)
Lemma recover_or_add_recorded self acc k t d :
  transition d self k t ->
  recover_or_add self acc k d = Done (acc ++ [t]) d.
Proof.
  intros Ht. unfold recover_or_add.
  rewrite (bind_done _ _ d true d)
    by (unfold read; by rewrite (lookout_exists_recorded self k t d Ht)).
  cbn [negb].
  rewrite (bind_done _ _ d tt d) by done.
  by rewrite (bind_done _ _ d t d) by (by apply next_state_at_recorded).
Qed.

Lemma transition_linked self k t d st m :
  node self d = Some st -> next_states st = Dict m ->
  transition (linked self k t d) self k t.
Proof.
  intros Hst Hm. unfold transition, get_next_state.
  rewrite node_linked, decide_True, Hst by done. simpl.
  rewrite Hm. apply lookup_insert_eq.
Qed.

(** A turn on a lookout the dictionary of [self] has no entry for. *)
Lemma recover_or_add_added self acc k d st m :
  well_formed d ->
  node self d = Some st -> next_states st = Dict m -> m !! k = None ->
  recover_or_add self acc k d =
    Done (acc ++ [ids (graph d)])
         (linked self k (ids (graph d)) (constructed k d)).
Proof.
  intros Hwf Hst Hm Hk. unfold recover_or_add.
  assert (Hne : ids (graph d) <> self).
  { pose proof (well_formed_lt d self Hwf ltac:(by eexists)). lia. }
  assert (Hst1 : node self (constructed k d) = Some st).
  { rewrite node_constructed. by case_decide. }
  rewrite (bind_done _ _ d false d).
  2:{ unfold read. rewrite lookout_exists_none; [done|].
      by rewrite (get_next_state_dict self k d st m). }
  cbn [negb].
  rewrite (bind_done _ _ d tt (linked self k (ids (graph d)) (constructed k d))).
  2:{ rewrite (bind_done _ _ d (ids (graph d)) (constructed k d))
        by apply automata_class_done.
      by apply (set_next_state_dict _ _ _ _ st m). }
  rewrite (bind_done _ _ _ (ids (graph d)) (linked self k (ids (graph d)) (constructed k d)));
    [done|].
  apply next_state_at_recorded. by apply (transition_linked _ _ _ _ st m).
Qed.

(** A turn on a state that holds the list the constructor set. *)
Lemma recover_or_add_on_list self acc k d st :
  well_formed d ->
  node self d = Some st -> next_states st = EmptyList ->
  recover_or_add self acc k d = Fails IndexError (constructed k d).
Proof.
  intros Hwf Hst Hm. unfold recover_or_add.
  assert (Hne : ids (graph d) <> self).
  { pose proof (well_formed_lt d self Hwf ltac:(by eexists)). lia. }
  assert (Hst1 : node self (constructed k d) = Some st).
  { rewrite node_constructed. by case_decide. }
  rewrite (bind_done _ _ d false d).
  2:{ unfold read. rewrite lookout_exists_none; [done|].
      by apply (get_next_state_list self k d st). }
  cbn [negb].
  apply bind_fails.
  rewrite (bind_done _ _ d (ids (graph d)) (constructed k d))
    by apply automata_class_done.
  by apply (set_next_state_list _ _ _ _ st).
Qed.

Lemma well_formed_linked self k t d :
  well_formed d -> well_formed (linked self k t d).
Proof. apply well_formed_update. Qed.

(** The last branch on a state that holds a dictionary: every lookout
    is answered by the target on record or by a state constructed for
    it, and nothing else changes. *)
Lemma single_layer_recovered self : forall ks acc d st m,
  well_formed d ->
  node self d = Some st -> next_states st = Dict m ->
  exists found d',
    for_each (recover_or_add self) acc ks d = Done (acc ++ found) d' /\
    recovered self m d ks found d'.
Proof.
  induction ks as [|k ks IH]; intros acc d st m Hwf Hst Hm.
  { exists [], d. split; [by rewrite app_nil_r|].
    split; [done|done|constructor| |done| |].
    - intros k t Hk. unfold transition.
      by rewrite (get_next_state_dict self k d st m).
    - intros n ?. lia.
    - by intros k ?%elem_of_nil. }
  assert (Hself : (self < ids (graph d))%nat).
  { apply (well_formed_lt d self Hwf). by eexists. }
  cbn [for_each].
  destruct (m !! k) as [t|] eqn:Hk.
  - assert (Ht : transition d self k t).
    { unfold transition. by rewrite (get_next_state_dict self k d st m). }
    rewrite (bind_done _ _ d (acc ++ [t]) d)
      by (by apply recover_or_add_recorded).
    destruct (IH (acc ++ [t]) d st m Hwf Hst Hm) as (found & d' & Heq & R).
    exists (t :: found), d'. split.
    { rewrite Heq. by rewrite <- app_assoc. }
    split.
    + apply R.
    + apply R.
    + constructor; [by apply (rc_old _ _ _ _ _ _ R)|apply R].
    + apply R.
    + apply R.
    + intros n Hn. destruct (rc_new _ _ _ _ _ _ R n Hn) as (k' & Hin & ?).
      exists k'. split; [apply elem_of_cons; by right|done].
    + intros k' Hin Hnone. apply elem_of_cons in Hin as [->|Hin]; [congruence|].
      by apply (rc_made _ _ _ _ _ _ R).
  - set (n := ids (graph d)).
    set (d1 := linked self k n (constructed k d)).
    rewrite (bind_done _ _ d (acc ++ [n]) d1)
      by (by apply (recover_or_add_added _ _ _ _ st m)).
    assert (Hwf1 : well_formed d1)
      by (by apply well_formed_linked, well_formed_constructed).
    assert (Hst0 : node self (constructed k d) = Some st).
    { rewrite node_constructed. case_decide; [lia|done]. }
    assert (Hst1 : node self d1 =
              Some (with_next_states (fun c =>
                      match c with
                      | Dict m => Dict (<[k := n]> m)
                      | EmptyList => EmptyList
                      end) st)).
    { subst d1. by rewrite node_linked, decide_True, Hst0. }
    assert (Hm1 : next_states (with_next_states (fun c =>
                      match c with
                      | Dict m => Dict (<[k := n]> m)
                      | EmptyList => EmptyList
                      end) st) = Dict (<[k := n]> m)).
    { simpl. by rewrite Hm. }
    assert (Hids1 : ids (graph d1) = S n) by done.
    assert (Hn1 : node n d1 = Some (init n EmptyList (PyInt k) None)).
    { subst d1. rewrite node_linked, decide_False by lia.
      rewrite node_constructed. by rewrite decide_True. }
    destruct (IH (acc ++ [n]) d1 _ _ Hwf1 Hst1 Hm1) as (found & d' & Heq & R).
    pose proof (rc_ids _ _ _ _ _ _ R) as Hle.
    assert (Hkn : transition d' self k n).
    { apply (rc_old _ _ _ _ _ _ R). apply lookup_insert_eq. }
    exists (n :: found), d'. split.
    { rewrite Heq. by rewrite <- app_assoc. }
    split.
    + apply R.
    + fold n. lia.
    + constructor; [done|apply R].
    + intros k' t Hk'. apply (rc_old _ _ _ _ _ _ R).
      rewrite lookup_insert_ne; [done|]. intros ->. congruence.
    + intros n' Hne Hlt. fold n in Hlt.
      rewrite (rc_frame _ _ _ _ _ _ R) by lia.
      subst d1. rewrite node_linked, decide_False by done.
      rewrite node_constructed. by rewrite decide_False by (fold n; lia).
    + intros n' Hn'. fold n in Hn'.
      destruct (decide (n' = n)) as [->|Hne].
      * exists k. split; [apply elem_of_cons; by left|].
        split; [done|]. split; [done|].
        rewrite (rc_frame _ _ _ _ _ _ R) by lia. exact Hn1.
      * destruct (rc_new _ _ _ _ _ _ R n' ltac:(lia))
          as (k' & Hin & Hnone & Ht & Hnode).
        exists k'. split; [apply elem_of_cons; by right|].
        split; [|done].
        destruct (decide (k' = k)) as [->|Hkk].
        -- by rewrite lookup_insert_eq in Hnone.
        -- by rewrite lookup_insert_ne in Hnone.
    + intros k' Hin Hnone. fold n.
      destruct (decide (k' = k)) as [->|Hkk].
      * exists n. split; [lia|]. split; [done|].
        rewrite (rc_frame _ _ _ _ _ _ R) by lia. exact Hn1.
      * apply elem_of_cons in Hin as [->|Hin]; [done|].
        destruct (rc_made _ _ _ _ _ _ R k' Hin) as (n' & Hn' & Ht).
        { by rewrite lookup_insert_ne. }
        exists n'. split; [lia|done].
Qed.

Lemma add_single_layer_on_list self k ks d st :
  well_formed d ->
  node self d = Some st -> next_states st = EmptyList ->
  add_single_layer self (k :: ks) d = Fails IndexError (constructed k d).
Proof.
  intros Hwf Hst Hm. unfold add_single_layer. cbn [for_each].
  apply bind_fails. by apply (recover_or_add_on_list _ _ _ _ st).
Qed.



(** *** A transition on record, and the calls that meet it *)

Lemma add_single_layer_recorded self a t d :
  transition d self a t -> add_single_layer self [a] d = Done [t] d.
Proof.
  intros Ht. unfold add_single_layer. cbn [for_each].
  by rewrite (bind_done _ _ d [t] d)
    by (by apply (recover_or_add_recorded self [] a t d)).
Qed.

(** Case 3, "n to m", for one repetition of one literal whose
    transition is on record: the layer is constructed all the same, not
    linked, and handed back. *)
Lemma once_on_record self a t d st :
  well_formed d -> node self d = Some st ->
  transition d self a t -> 1 <= max_repeat_handled st ->
  add_or_recover_lookout self (max_repeat 1 1 [literal a]) d =
    Done [ids (graph d)] (constructed a d).
Proof.
  intros Hwf Hst Ht Hmx. unfold add_or_recover_lookout.
  change (get_formated_lookouts_list [literal a]) with [a].
  rewrite (bind_done _ _ d (max_repeat_handled st) d)
    by (unfold read, max_repeat_handled_of; by rewrite Hst).
  replace (max_repeat_handled st <? 1) with false
    by (symmetry; apply Z.ltb_ge; lia).
  replace (1 <=? max_repeat_handled st) with true
    by (symmetry; apply Z.leb_le; lia).
  change (0 <? 1) with true. change (1 =? 0) with false. cbn [andb].
  change (Z.to_nat 1) with 1%nat. change (Z.to_nat (1 - 1)) with 0%nat.
  set (n := ids (graph d)).
  assert (Ht1 : transition (constructed a d) self a t).
  { unfold transition. by rewrite get_next_state_constructed. }
  rewrite (bind_done _ _ d ([n], [n]) (constructed a d)); [done|].
  cbn [chain_layers].
  rewrite (bind_done _ _ d {[a := n]} (constructed a d)).
  2:{ unfold lookout_nodes_for. cbn [for_each].
      rewrite (bind_done _ _ d {[a := n]} (constructed a d)); [done|].
      rewrite (bind_done _ _ d n (constructed a d))
        by apply automata_class_done.
      unfold mret, action_ret. by rewrite insert_empty. }
  rewrite (bind_done _ _ _ tt (constructed a d)).
  2:{ unfold link_layer. cbn [for_each].
      rewrite (bind_done _ _ _ tt (constructed a d)); [done|].
      rewrite (bind_done _ _ _ tt (constructed a d)); [done|].
      unfold link.
      by rewrite (bind_done _ _ _ true (constructed a d))
        by (unfold read; by rewrite (lookout_exists_recorded self a t _ Ht1)). }
  unfold values. by rewrite map_to_list_singleton.
Qed.



(** * Further properties *)

(** ** The terminal slot, read back *)

(** X1: on a state that is not terminal, [set_terminal_token] with a
    truthy token or with [None] makes the state terminal and
    [get_terminal_token] hands the token back, [None] for an ignored
    terminal; [delete_terminal_token] makes [get_terminal_token] raise
    again and frees the slot for the next [set_terminal_token]. *)
Theorem terminal_token_read_back {E} (self : FiniteAutomata E)
    (token token' : token_value) :
  terminal_exists self = false ->
  truthy token || is_none token = true ->
  let s := set_terminal_token self token in
  terminal_exists s = true /\
  get_terminal_token s =
    Returns (if is_none token || is_ignored token then PyNone else token) /\
  terminal_is_ignored s = is_none token || is_ignored token /\
  get_terminal_token (delete_terminal_token s) = Raises NodeIsNotTerminalState /\
  terminal_token (set_terminal_token (delete_terminal_token s) token') =
    if is_none token' then IGNORED else token'.
Proof.
  intros Hfree Htok s.
  assert (Hs : terminal_token s = if is_none token then IGNORED else token).
  { by apply set_terminal_token_unset. }
  assert (Hex : terminal_exists s = true).
  { rewrite terminal_exists_truthy, Hs.
    destruct token; simpl in *; rewrite ?orb_false_r in Htok; done. }
  split; [done|]. split.
  { unfold get_terminal_token, terminal_is_ignored. rewrite Hex, Hs.
    by destruct token. }
  split.
  { unfold terminal_is_ignored. rewrite Hs. by destruct token. }
  split; [done|].
  by rewrite set_terminal_token_unset.
Qed.

Lemma terminal_token_read_back_witness :
  let s := set_terminal_token (init 0%nat tt PyNone None) (PyStr "ID") in
  terminal_exists s = true /\
  get_terminal_token s = Returns (PyStr "ID") /\
  terminal_is_ignored s = false /\
  get_terminal_token (delete_terminal_token s) = Raises NodeIsNotTerminalState /\
  terminal_token (set_terminal_token (delete_terminal_token s) PyNone) = IGNORED.
Proof.
  apply (terminal_token_read_back (init 0%nat tt PyNone None) (PyStr "ID") PyNone);
    reflexivity.
Defined.

(** ** The interval reducer, once more *)

Lemma elem_of_range_set lo hi x : x ∈ range_set lo hi <-> lo <= x <= hi.
Proof.
  unfold range_set. rewrite elem_of_list_to_set, elem_of_seqZ. lia.
Qed.

Lemma elem_of_intervals_to_set l x : x ∈ intervals_to_set l <-> covers l x.
Proof.
  unfold intervals_to_set, covers. rewrite elem_of_union_list. split.
  - intros (X & HX & Hx). apply list_elem_of_fmap in HX as (i & -> & Hi).
    exists i. split; [done|]. by apply elem_of_range_set.
  - intros (i & Hi & Hx). exists (range_set i.1 i.2). split.
    + apply list_elem_of_fmap. by exists i.
    + by apply elem_of_range_set.
Qed.

(** What [set_to_intervals] returns, for use below. *)
Lemma set_to_intervals_spec (ascii_set : gset Z) :
  Forall (fun i => i.1 <= i.2) (set_to_intervals ascii_set) /\
  StronglySorted apart (set_to_intervals ascii_set) /\
  forall x, x ∈ ascii_set <-> covers (set_to_intervals ascii_set) x.
Proof.
  unfold set_to_intervals.
  pose proof (merge_sort_Permutation Z.le (elements ascii_set)) as Hperm.
  assert (Hs : StronglySorted Z.lt (merge_sort Z.le (elements ascii_set))).
  { apply StronglySorted_le_lt; [apply StronglySorted_merge_sort; apply _|].
    rewrite Hperm. apply NoDup_elements. }
  assert (Hin : forall x, x ∈ ascii_set <->
                          x ∈ merge_sort Z.le (elements ascii_set)).
  { intros x. by rewrite Hperm, elem_of_elements. }
  case_decide as Hsize.
  { apply size_empty_iff in Hsize. repeat split; try constructor.
    - intros Hx. apply Hsize in Hx. by apply elem_of_empty in Hx.
    - intros (i & Hi & _). by apply elem_of_nil in Hi. }
  destruct (merge_sort Z.le (elements ascii_set)) as [|first rest] eqn:Hl.
  { exfalso. apply Hsize. apply size_empty_iff. intros x.
    rewrite Hin. split; [by intros ?%elem_of_nil|by intros ?%elem_of_empty]. }
  destruct (sweep_spec rest first first) as (Hlo & Hap & Hcov); [lia|done|].
  repeat split; try done.
  - eapply Forall_impl; [exact Hlo|]. by intros i [_ ?].
  - intros Hx. apply Hcov. apply Hin in Hx.
    apply elem_of_cons in Hx as [->|Hx]; [left; lia|by right].
  - intros Hx. apply Hcov in Hx. apply Hin. apply elem_of_cons.
    destruct Hx as [Hx|Hx]; [left; lia|by right].
Qed.

(** Two lists of separated intervals over the same points are the same
    list. *)
Lemma separated_unique (l1 : list (Z * Z)) : forall l2,
  Forall (fun i => i.1 <= i.2) l1 -> StronglySorted apart l1 ->
  Forall (fun i => i.1 <= i.2) l2 -> StronglySorted apart l2 ->
  (forall x, covers l1 x <-> covers l2 x) ->
  l1 = l2.
Proof.
  assert (Hhead : forall a b l x,
    Forall (fun i => i.1 <= i.2) ((a, b) :: l) ->
    StronglySorted apart ((a, b) :: l) ->
    covers ((a, b) :: l) x -> a <= x /\ (x <= b \/ (b + 1 < x /\ covers l x))).
  { intros a b l x Hw Hs (i & Hi & Hx).
    apply Forall_cons in Hw as [Hab Hw]. apply StronglySorted_inv in Hs as [_ Hall].
    apply elem_of_cons in Hi as [->|Hi]; simpl in *; [lia|].
    rewrite Forall_forall in Hall. specialize (Hall i Hi). unfold apart in Hall.
    simpl in *. split; [lia|]. right. split; [lia|]. by exists i. }
  assert (Hin : forall a b l x, a <= x <= b -> covers ((a, b) :: l) x).
  { intros a b l x Hx. exists (a, b). split; [apply elem_of_cons; by left|done]. }
  assert (Htl : forall i l x, covers l x -> covers (i :: l) x).
  { intros i l x (j & Hj & Hx). exists j. split; [apply elem_of_cons; by right|done]. }
  induction l1 as [|[a b] l1 IH]; intros [|[c d] l2] Hw1 Hs1 Hw2 Hs2 Hcov.
  - done.
  - apply Forall_cons in Hw2 as [Hcd _]. simpl in Hcd.
    destruct (proj2 (Hcov c) (Hin c d l2 c ltac:(lia))) as (i & Hi & _).
    by apply elem_of_nil in Hi.
  - apply Forall_cons in Hw1 as [Hab _]. simpl in Hab.
    destruct (proj1 (Hcov a) (Hin a b l1 a ltac:(lia))) as (i & Hi & _).
    by apply elem_of_nil in Hi.
  - pose proof Hw1 as Hw1'. pose proof Hw2 as Hw2'.
    apply Forall_cons in Hw1' as [Hab Hw1']. apply Forall_cons in Hw2' as [Hcd Hw2'].
    simpl in Hab, Hcd.
    pose proof Hs1 as Hs1'. pose proof Hs2 as Hs2'.
    apply StronglySorted_inv in Hs1' as [Hs1' _].
    apply StronglySorted_inv in Hs2' as [Hs2' _].
    assert (a = c).
    { destruct (Hhead c d l2 a Hw2 Hs2 (proj1 (Hcov a) (Hin a b l1 a ltac:(lia)))).
      destruct (Hhead a b l1 c Hw1 Hs1 (proj2 (Hcov c) (Hin c d l2 c ltac:(lia)))).
      lia. }
    subst c.
    assert (b = d).
    { destruct (Z.lt_trichotomy b d) as [Hlt|[?|Hlt]]; [|done|].
      - destruct (Hhead a b l1 (b + 1) Hw1 Hs1
                    (proj2 (Hcov (b + 1)) (Hin a d l2 (b + 1) ltac:(lia))))
          as [_ [?|[? _]]]; lia.
      - destruct (Hhead a d l2 (d + 1) Hw2 Hs2
                    (proj1 (Hcov (d + 1)) (Hin a b l1 (d + 1) ltac:(lia))))
          as [_ [?|[? _]]]; lia. }
    subst d. f_equal. apply IH; try done.
    intros x. split; intros Hx.
    + destruct (Hhead a b l1 x Hw1 Hs1 (Htl _ _ _ Hx)) as [_ [Hle|[Hgt _]]].
      * exfalso. destruct (Hhead a b l1 x Hw1 Hs1 (Htl _ _ _ Hx)) as [Hax _].
        destruct Hx as (i & Hi & Hx). apply StronglySorted_inv in Hs1 as [_ Hall].
        rewrite Forall_forall in Hall. specialize (Hall i Hi).
        unfold apart in Hall. simpl in Hall. lia.
      * destruct (Hhead a b l2 x Hw2 Hs2 (proj1 (Hcov x) (Htl _ _ _ Hx)))
          as [_ [?|[_ ?]]]; [lia|done].
    + destruct (Hhead a b l2 x Hw2 Hs2 (Htl _ _ _ Hx)) as [_ [Hle|[Hgt _]]].
      * exfalso. destruct Hx as (i & Hi & Hx).
        apply StronglySorted_inv in Hs2 as [_ Hall].
        rewrite Forall_forall in Hall. specialize (Hall i Hi).
        unfold apart in Hall. simpl in Hall. lia.
      * destruct (Hhead a b l1 x Hw1 Hs1 (proj2 (Hcov x) (Htl _ _ _ Hx)))
          as [_ [?|[_ ?]]]; [lia|done].
Qed.

Lemma set_to_intervals_canonical (l : list (Z * Z)) (ascii_set : gset Z) :
  Forall (fun i => i.1 <= i.2) l ->
  StronglySorted apart l ->
  (forall x, x ∈ ascii_set <-> covers l x) ->
  set_to_intervals ascii_set = l.
Proof.
  intros Hw Hs Hl.
  destruct (set_to_intervals_spec ascii_set) as (Hw' & Hs' & Hcov).
  apply separated_unique; try done.
  intros x. by rewrite <- Hcov, Hl.
Qed.

(** X2: a sorted list of intervals with [lo <= hi], any two separated by
    a code point, is what [set_to_intervals] returns for the set of their
    code points: intervals to set and back is the identity, so the
    result of [set_to_intervals] cannot be made shorter. *)
Theorem set_to_intervals_of_intervals (l : list (Z * Z)) :
  Forall (fun i => i.1 <= i.2) l ->
  StronglySorted apart l ->
  set_to_intervals (intervals_to_set l) = l.
Proof.
  intros Hw Hs. apply set_to_intervals_canonical; try done.
  apply elem_of_intervals_to_set.
Qed.

Lemma set_to_intervals_of_intervals_witness :
  set_to_intervals (intervals_to_set [(1, 3); (5, 6); (9, 9)]) =
    [(1, 3); (5, 6); (9, 9)].
Proof.
  apply (set_to_intervals_of_intervals [(1, 3); (5, 6); (9, 9)]).
  - repeat constructor; simpl; lia.
  - repeat constructor; unfold apart; simpl; lia.
Defined.

(** ** Character classes *)

Lemma sre_list_to_set_one token :
  sre_list_to_set [token] = sre_token_to_set token.
Proof. unfold sre_list_to_set; simpl. apply union_empty_l_L. Qed.

Lemma elem_of_sre_token_to_set_in items x :
  x ∈ sre_token_to_set (in_ items) <->
  exists item, item ∈ items /\ x ∈ sre_token_to_set item.
Proof.
  cbn [sre_token_to_set]. induction items as [|t l IH].
  - split; [by intros ?%elem_of_empty|]. by intros (? & ?%elem_of_nil & _).
  - rewrite elem_of_union, IH. split.
    + intros [Hx|(item & Hi & Hx)].
      * exists t. split; [apply elem_of_cons; by left|done].
      * exists item. split; [apply elem_of_cons; by right|done].
    + intros (item & Hi & Hx). apply elem_of_cons in Hi as [->|Hi]; [by left|].
      right. by exists item.
Qed.

(** X3: the intervals of a character class hold exactly the code points
    of its 'literal' items, of its 'range' items and of the classes nested
    in it; every other item ('negate', 'category') adds nothing, so a
    negated class gets the intervals of the class it negates. *)
Theorem class_intervals_hold_the_items (items : list sre_token) (x : Z) :
  covers (sre_list_to_interval [in_ items]) x <->
  exists item, item ∈ items /\
    match item with
    | literal c => x = c
    | range lo hi => lo <= x <= hi
    | in_ _ => x ∈ sre_token_to_set item
    | _ => False
    end.
Proof.
  unfold sre_list_to_interval. rewrite sre_list_to_set_one.
  destruct (set_to_intervals_spec (sre_token_to_set (in_ items)))
    as (_ & _ & Hcov).
  rewrite <- Hcov, elem_of_sre_token_to_set_in.
  split; intros (item & Hi & Hx); exists item; (split; [done|]).
  - destruct item; cbn [sre_token_to_set] in Hx;
      first [ done
            | by apply elem_of_singleton in Hx
            | by apply elem_of_range_set in Hx
            | by apply elem_of_empty in Hx ].
  - destruct item; cbn [sre_token_to_set];
      first [ done
            | by apply elem_of_singleton
            | by apply elem_of_range_set ].
Qed.

(** X4: a class whose code points are one block [lo..hi], however its
    items spell it ([a-f], [abc], [a-cd-f], a single [a]), translates to
    one 'single' node for that range, continued by the tree of the rest
    of the stream. *)
Theorem class_of_one_block_is_single
    (cutoff lo hi : Z) (items tail : list sre_token) (tn : RegexpTree) :
  lo <= hi ->
  (forall x, x ∈ sre_token_to_set (in_ items) <-> lo <= x <= hi) ->
  translates cutoff tail tn ->
  translates cutoff (in_ items :: tail) (single lo hi tn).
Proof.
  intros Hle Hblock [fuel Hn]. exists (S fuel).
  cbn [sre_to_regexp_tree sre_to_regexp_tree_body].
  unfold sre_list_to_interval. rewrite sre_list_to_set_one.
  rewrite (set_to_intervals_canonical [(lo, hi)]).
  - simpl. by rewrite Hn.
  - by repeat constructor.
  - repeat constructor.
  - intros x. rewrite Hblock. split.
    + intros Hx. exists (lo, hi). split; [apply list_elem_of_singleton|]; done.
    + intros (i & Hi & Hx). by apply list_elem_of_singleton in Hi as ->.
Qed.

Lemma class_of_one_block_is_single_witness :
  translates 100
    (in_ [literal 97; range 98 99; literal 100] :: [literal 120])
    (single 97 100 (single 120 120 NoTree)).
Proof.
  apply (class_of_one_block_is_single 100 97 100
           [literal 97; range 98 99; literal 100] [literal 120]
           (single 120 120 NoTree)).
  - lia.
  - intros x. cbn [sre_token_to_set].
    rewrite !elem_of_union, !elem_of_singleton, elem_of_range_set, elem_of_empty.
    lia.
  - exists 2%nat. reflexivity.
Defined.

(** X5: a class with no 'literal', 'range' or nested class among its
    items (a lone category, as in [\d]) translates to the absent tree,
    and the rest of the stream is not translated at all. *)
Theorem class_without_code_point_ends_translation
    (fuel : nat) (cutoff : Z) (items tail : list sre_token) :
  Forall (fun item => unrecognized item = true) items ->
  sre_to_regexp_tree (S fuel) (in_ items :: tail) cutoff = Returns NoTree.
Proof.
  intros Hitems. cbn [sre_to_regexp_tree sre_to_regexp_tree_body].
  unfold sre_list_to_interval. rewrite sre_list_to_set_one.
  replace (sre_token_to_set (in_ items)) with (∅ : gset Z); [done|].
  symmetry. apply set_eq. intros x. rewrite elem_of_sre_token_to_set_in.
  split; [|by intros ?%elem_of_empty].
  intros (item & Hi & Hx). rewrite Forall_forall in Hitems.
  specialize (Hitems item Hi). destruct item; try discriminate;
    by apply elem_of_empty in Hx.
Qed.

Lemma class_without_code_point_ends_translation_witness :
  sre_to_regexp_tree 1 (in_ [other "category"] :: [literal 97]) 100 =
    Returns NoTree.
Proof.
  apply (class_without_code_point_ends_translation 0 100
           [other "category"] [literal 97]).
  repeat constructor.
Defined.

(** ** Repetitions with a minimum *)

Lemma repeat_list_literals n cs :
  repeat_list n (literals cs) = literals (mjoin (replicate (Z.to_nat n) cs)).
Proof.
  unfold repeat_list, literals.
  induction (Z.to_nat n) as [|k IH]; simpl; [done|].
  by rewrite fmap_app, IH.
Qed.

(** [Repeat(min, max, sub)] with [min > 0] is translated as [min] copies
    of [sub] followed by a repetition from 0. *)
Lemma translates_min_repeat cutoff min max sub tail t :
  0 < min ->
  translates cutoff
    (repeat_list min sub
       ++ [max_repeat 0 (if max <=? cutoff then max - min else max) sub]
       ++ tail) t ->
  translates cutoff (max_repeat min max sub :: tail) t.
Proof.
  intros Hmin [fuel H]. exists (S fuel).
  cbn [sre_to_regexp_tree sre_to_regexp_tree_body].
  by replace (0 <? min) with true by (symmetry; by apply Z.ltb_lt).
Qed.

(** [Repeat(0, max, sub)] with [max] above the cutoff is a 'kleene'. *)
Lemma translates_kleene cutoff max sub tail pattern tn :
  0 <= cutoff < max ->
  translates cutoff sub pattern ->
  translates default_max_repeat_handled tail tn ->
  translates cutoff (max_repeat 0 max sub :: tail) (kleene pattern tn).
Proof.
  intros Hmax [f1 H1] [f2 H2].
  exists (S (Nat.max f1 f2)).
  apply (sre_to_regexp_tree_mono _ (Nat.max f1 f2)) in H1, H2; try lia.
  cbn [sre_to_regexp_tree sre_to_regexp_tree_body].
  replace (0 <? 0) with false by done.
  replace ((1 <=? max) && (max <=? cutoff)) with false
    by (symmetry; apply andb_false_iff; right; apply Z.leb_gt; lia).
  replace (max =? 0) with false by (symmetry; apply Z.eqb_neq; lia).
  by rewrite H1, H2.
Qed.

Lemma translates_literals_alone cutoff c cs :
  translates cutoff (literals (c :: cs)) (chain (c :: cs) NoTree).
Proof.
  rewrite <- (app_nil_r (literals (c :: cs))).
  apply translates_literals, translates_nil.
Qed.

Lemma copies_cons n (c : Z) cs :
  (0 < n)%nat ->
  exists rest, mjoin (replicate n (c :: cs)) = c :: rest.
Proof. destruct n; [lia|]. simpl. eauto. Qed.

(** X6: "at least [n]" over a stream of literals: with [n >= 1] and
    [max] above both the cutoff given and the default cutoff 100 (as the
    unbounded [MAXREPEAT] of [+] is), [Repeat(n, max, sub)] becomes [n]
    copies of the chain of [sub], then a 'kleene' of one more chain of
    [sub], then nothing: [a+] is [a(a)*]. *)
Theorem at_least_repeat_is_copies_then_kleene
    (cutoff max : Z) (n : nat) (c : Z) (cs : list Z) :
  (0 < n)%nat ->
  0 <= cutoff < max ->
  default_max_repeat_handled < max ->
  translates cutoff [max_repeat (Z.of_nat n) max (literals (c :: cs))]
    (chain (mjoin (replicate n (c :: cs)))
           (kleene (chain (c :: cs) NoTree) NoTree)).
Proof.
  intros Hn Hcut Hdef. apply translates_min_repeat; [lia|].
  replace (max <=? cutoff) with false by (symmetry; apply Z.leb_gt; lia).
  rewrite repeat_list_literals, Nat2Z.id, app_nil_r.
  destruct (copies_cons n c cs Hn) as [rest ->].
  apply translates_literals, translates_kleene.
  - unfold default_max_repeat_handled in *. lia.
  - apply translates_literals_alone.
  - apply translates_nil.
Qed.

Lemma at_least_repeat_is_copies_then_kleene_witness :
  translates 100 [max_repeat (Z.of_nat 1) 65535 (literals [97])]
    (chain (mjoin (replicate 1 [97]))
           (kleene (chain [97] NoTree) NoTree)).
Proof.
  apply (at_least_repeat_is_copies_then_kleene 100 65535 1 97 []);
    unfold default_max_repeat_handled; lia.
Defined.

(** X7: "[n] to [m]" over a stream of literals: with [1 <= n <= m],
    [m] up to the cutoff given and [m - n] up to the default cutoff 100,
    [Repeat(n, m, sub)] becomes [n] copies of the chain of [sub] followed
    by the tree of [Repeat(0, m - n, sub)]. *)
Theorem bounded_repeat_is_copies_then_optional
    (cutoff : Z) (n m : nat) (c : Z) (cs : list Z) :
  (0 < n <= m)%nat ->
  Z.of_nat m <= cutoff ->
  Z.of_nat (m - n) <= default_max_repeat_handled ->
  translates cutoff
    [max_repeat (Z.of_nat n) (Z.of_nat m) (literals (c :: cs))]
    (chain (mjoin (replicate n (c :: cs))) (repeat_tree (c :: cs) (m - n))).
Proof.
  intros Hn Hcut Hdef. apply translates_min_repeat; [lia|].
  replace (Z.of_nat m <=? cutoff) with true by (symmetry; by apply Z.leb_le).
  rewrite repeat_list_literals, Nat2Z.id, app_nil_r.
  destruct (copies_cons n c cs ltac:(lia)) as [rest ->].
  replace (Z.of_nat m - Z.of_nat n) with (Z.of_nat (m - n)) by lia.
  apply translates_literals, translates_repeat_tree; [done|lia].
Qed.

Lemma bounded_repeat_is_copies_then_optional_witness :
  translates 100 [max_repeat (Z.of_nat 2) (Z.of_nat 3) (literals [97])]
    (chain (mjoin (replicate 2 [97])) (repeat_tree [97] (3 - 2))).
Proof.
  apply (bounded_repeat_is_copies_then_optional 100 2 3 97 []);
    unfold default_max_repeat_handled; simpl; lia.
Defined.

(** X8: the cutoff a caller passes is lost once a literal has been
    translated: the rest of the stream is translated under the default
    cutoff 100.  So with a cutoff above 100, "[n] to [m]" over a stream
    of literals with [m] up to that cutoff but [m - n] above 100 becomes
    [n] copies followed by a 'kleene', which bounds nothing. *)
Theorem cutoff_is_lost_after_a_literal
    (cutoff : Z) (n m : nat) (c : Z) (cs : list Z) :
  (0 < n <= m)%nat ->
  Z.of_nat m <= cutoff ->
  default_max_repeat_handled < Z.of_nat (m - n) ->
  translates cutoff
    [max_repeat (Z.of_nat n) (Z.of_nat m) (literals (c :: cs))]
    (chain (mjoin (replicate n (c :: cs)))
           (kleene (chain (c :: cs) NoTree) NoTree)).
Proof.
  intros Hn Hcut Hdef. apply translates_min_repeat; [lia|].
  replace (Z.of_nat m <=? cutoff) with true by (symmetry; by apply Z.leb_le).
  rewrite repeat_list_literals, Nat2Z.id, app_nil_r.
  destruct (copies_cons n c cs ltac:(lia)) as [rest ->].
  replace (Z.of_nat m - Z.of_nat n) with (Z.of_nat (m - n)) by lia.
  apply translates_literals, translates_kleene.
  - unfold default_max_repeat_handled in *. lia.
  - apply translates_literals_alone.
  - apply translates_nil.
Qed.

Lemma cutoff_is_lost_after_a_literal_witness :
  translates 200 [max_repeat (Z.of_nat 1) (Z.of_nat 150) (literals [97])]
    (chain (mjoin (replicate 1 [97]))
           (kleene (chain [97] NoTree) NoTree)).
Proof.
  apply (cutoff_is_lost_after_a_literal 200 1 150 97 []);
    unfold default_max_repeat_handled; simpl; lia.
Defined.

(** ** The printer, where it succeeds *)

Lemma chr_in_range c :
  0 <= c < 256 -> chr c = Returns (String (ascii_of_N (Z.to_N c)) EmptyString).
Proof.
  intros Hc. unfold chr.
  by replace ((0 <=? c) && (c <? 256)) with true
    by (symmetry; apply andb_true_iff; lia).
Qed.

(** X9: a chain of 'single' nodes over code points below 256, the tree
    of a pattern made of plain characters, prints as those characters. *)
Theorem print_regexp_of_literals (c : Z) (cs : list Z) :
  Forall (fun x => 0 <= x < 256) (c :: cs) ->
  print_regexp (chain (c :: cs) NoTree) = Returns (text_of (c :: cs)) /\
  translates default_max_repeat_handled (literals (c :: cs))
    (chain (c :: cs) NoTree).
Proof.
  intros Hall. split; [|apply translates_literals_alone].
  revert c Hall. induction cs as [|d cs IH]; intros c Hall.
  - apply Forall_cons in Hall as [Hc _]. simpl.
    rewrite Z.eqb_refl, chr_in_range by done. done.
  - apply Forall_cons in Hall as [Hc Hall].
    change (print_regexp (chain (c :: d :: cs) NoTree))
      with (exp ← (if c =? c then chr c
                   else lo ← chr c; hi ← chr c;
                        Returns ("[" +:+ lo +:+ "-" +:+ hi +:+ "]"));
            rest ← print_regexp (chain (d :: cs) NoTree);
            Returns (exp +:+ rest)).
    rewrite Z.eqb_refl, chr_in_range, IH by done. done.
Qed.

Lemma print_regexp_of_literals_witness :
  print_regexp (chain [105; 102] NoTree) = Returns (text_of [105; 102]) /\
  translates default_max_repeat_handled (literals [105; 102])
    (chain [105; 102] NoTree).
Proof.
  apply (print_regexp_of_literals 105 [102]).
  repeat constructor; lia.
Defined.

(** X10: [print_regexp] returns a string exactly on the trees whose code
    points [chr] takes and which have no 'union' with both branches
    absent and no 'kleene' without pattern; on every other tree it
    raises. *)
Theorem print_regexp_returns_iff_printable (t : RegexpTree) :
  if printable t
  then exists text, print_regexp t = Returns text
  else raises (print_regexp t).
Proof.
  assert (Hnext : forall next exp,
    (if printable next then exists text, print_regexp next = Returns text
     else raises (print_regexp next)) ->
    if match next with NoTree => true | _ => printable next end
    then exists text,
           match next with
           | NoTree => Returns exp
           | _ => rest ← print_regexp next; Returns (exp +:+ rest)
           end = Returns text
    else raises
           match next with
           | NoTree => Returns exp
           | _ => rest ← print_regexp next; Returns (exp +:+ rest)
           end).
  { intros next exp IH.
    destruct next; [by eexists|..];
      (destruct (printable _);
       [destruct IH as [text ->]; by eexists
       |destruct IH as [e ->]; by exists e]). }
  assert (Hbind : forall (r : result string) (k : string -> result string)
                          (b : bool),
    (forall exp, if b then exists text, k exp = Returns text
                 else raises (k exp)) ->
    forall a : bool, (if a then exists text, r = Returns text else raises r) ->
    if a && b then exists text, r ≫= k = Returns text else raises (r ≫= k)).
  { intros r k b Hk a Hr. destruct a; simpl.
    - destruct Hr as [text ->]. apply Hk.
    - destruct Hr as [e ->]. by exists e. }
  induction t as [|lo hi next IHn|fst IHf snd IHs next IHn|pattern IHp next IHn].
  - by exists AttributeError.
  - cbn [printable print_regexp].
    apply Hbind; [intros exp; by apply Hnext|].
    unfold chr. destruct (lo =? hi) eqn:Heq.
    + apply Z.eqb_eq in Heq. subst hi.
      destruct (0 <=? lo), (lo <? 256); simpl;
        first [by eexists | by exists ValueError].
    + destruct (0 <=? lo), (lo <? 256), (0 <=? hi), (hi <? 256); simpl;
        first [by eexists | by exists ValueError].
  - cbn [printable print_regexp].
    apply Hbind; [intros exp; by apply Hnext|].
    destruct fst, snd;
      repeat match goal with
      | H : if printable ?t then _ else _ |- _ =>
          lazymatch t with
          | NoTree => clear H
          | _ => destruct (printable t); [destruct H as [? ->]|destruct H as [? ->]]
          end
      end; simpl; try (by eexists); try (by exists AttributeError).
  - cbn [printable print_regexp].
    apply Hbind; [intros exp; by apply Hnext|].
    destruct (printable pattern).
    + destruct IHp as [text ->]. by eexists.
    + destruct IHp as [e ->]. by exists e.
Qed.

(** ** The NFA builder, state by state *)

Lemma nodes_construct {E} (empty : E) terminal (h : store E) n :
  nodes (construct empty terminal h).2 !! n =
    if decide (ids h = n) then Some (init (ids h) empty terminal None)
    else nodes h !! n.
Proof. unfold construct; simpl. rewrite lookup_insert. by case_decide. Qed.

Lemma nodes_update {E} s (f : FiniteAutomata E -> FiniteAutomata E) h n :
  nodes (update s f h) !! n =
    if decide (s = n) then f <$> nodes h !! s else nodes h !! n.
Proof. unfold update; simpl. rewrite lookup_alter. by case_decide; subst. Qed.

Lemma store_wf_lt {E} (h : store E) n :
  store_wf h -> is_Some (nodes h !! n) -> (n < ids h)%nat.
Proof. intros Hwf [st Hst]. exact (Hwf n st Hst). Qed.

Lemma store_wf_update {E} s (f : FiniteAutomata E -> FiniteAutomata E) h :
  store_wf h -> store_wf (update s f h).
Proof.
  intros Hwf n st Hn. rewrite nodes_update in Hn.
  change (ids (update s f h)) with (ids h). apply (store_wf_lt h n Hwf).
  case_decide; subst; [|by eexists]. destruct (nodes h !! n); [by eexists|done].
Qed.

Lemma store_wf_construct {E} (empty : E) terminal h :
  store_wf h -> store_wf (construct empty terminal h).2.
Proof.
  intros Hwf n st Hn. rewrite nodes_construct in Hn.
  change (ids (construct empty terminal h).2) with (S (ids h)).
  case_decide; [lia|]. assert ((n < ids h)%nat); [|lia].
  apply (store_wf_lt h n Hwf). by eexists.
Qed.

Lemma with_next_states_nil (s : FiniteAutomata (list ((Z * Z) * nat))) :
  with_next_states (fun l => l ++ []) s = s.
Proof. destruct s. unfold with_next_states; simpl. by rewrite app_nil_r. Qed.

Lemma grown_refl h self : store_wf h -> grown h h self 0 [].
Proof.
  intros Hwf. split.
  - lia.
  - done.
  - done.
  - destruct (nodes h !! self) as [st|]; simpl; [|done].
    by rewrite with_next_states_nil.
  - intros n ?. lia.
Qed.

(** [lia] over the counters of stores whose edge type is spelled in
    more than one way. *)
Ltac nfa_norm := unfold LexerNFA.nfa, LexerNFA.edges in *.
Ltac nfa_lia := nfa_norm; lia.

(** A state is constructed and an edge to it hung on [self]. *)
Lemma grown_new_edge lookout self h :
  store_wf h -> (self < ids h)%nat ->
  let h' := update self (LexerNFA.append_edge lookout (ids h))
              (construct [] PyNone h).2 in
  grown h h' self 1 [(lookout, ids h)] /\
  LexerNFA.transitions (ids h) h' = [].
Proof.
  intros Hwf Hself h'.
  assert (Hnode : forall n, nodes h' !! n =
    if decide (self = n)
    then LexerNFA.append_edge lookout (ids h) <$> nodes h !! self
    else if decide (ids h = n) then Some (init (ids h) [] PyNone None)
    else nodes h !! n).
  { intros n. unfold h'. rewrite nodes_update, !nodes_construct.
    repeat case_decide; try done; nfa_lia. }
  split; [split|].
  - change (S (ids h) = (ids h + 1)%nat). nfa_lia.
  - apply store_wf_update, store_wf_construct, Hwf.
  - intros n Hn Hne. rewrite Hnode. repeat case_decide; try done; nfa_lia.
  - rewrite Hnode. by case_decide.
  - intros n Hn. change (ids h') with (S (ids h)) in Hn.
    assert (n = ids h) as -> by nfa_lia. rewrite Hnode.
    repeat case_decide; try nfa_lia. by eexists.
  - unfold LexerNFA.transitions. rewrite Hnode.
    repeat case_decide; try nfa_lia. done.
Qed.

(** An edge between states that exist. *)
Lemma grown_edge lookout self target h :
  store_wf h ->
  grown h (update self (LexerNFA.append_edge lookout target) h) self 0
        [(lookout, target)].
Proof.
  intros Hwf. split.
  - simpl. nfa_lia.
  - by apply store_wf_update.
  - intros n Hn Hne. rewrite nodes_update. by case_decide.
  - rewrite nodes_update. by case_decide.
  - intros n Hn. simpl in Hn. nfa_lia.
Qed.

(** What happens on and under a state constructed since [h] leaves the
    report on [h] as it is. *)
Lemma grown_under h h1 h2 self k1 added s2 k2 added2 :
  (self < ids h)%nat -> (ids h <= s2)%nat ->
  grown h h1 self k1 added -> grown h1 h2 s2 k2 added2 ->
  grown h h2 self (k1 + k2) added.
Proof.
  intros Hself Hs2 G1 G2.
  pose proof (gr_ids _ _ _ _ _ G1) as I1.
  pose proof (gr_ids _ _ _ _ _ G2) as I2.
  split.
  - nfa_lia.
  - apply G2.
  - intros n Hn Hne. rewrite (gr_frame _ _ _ _ _ G2) by nfa_lia.
    by apply (gr_frame _ _ _ _ _ G1).
  - rewrite (gr_frame _ _ _ _ _ G2) by nfa_lia. apply G1.
  - intros n Hn. destruct (decide (n < ids h1)%nat) as [Hlt|Hge].
    + destruct (gr_new _ _ _ _ _ G1 n) as (st & Hst & Ht & Hid); [nfa_lia|].
      destruct (decide (n = s2)) as [->|Hne].
      * exists (with_next_states (fun l => l ++ added2) st).
        by rewrite (gr_self _ _ _ _ _ G2), Hst.
      * exists st. by rewrite (gr_frame _ _ _ _ _ G2).
    + apply (gr_new _ _ _ _ _ G2). nfa_lia.
Qed.

Lemma grown_count h h' self k k' added :
  k = k' -> grown h h' self k added -> grown h h' self k' added.
Proof. by intros ->. Qed.

Lemma transitions_grown_self h h' self k added :
  grown h h' self k added -> is_Some (nodes h !! self) ->
  LexerNFA.transitions self h' = LexerNFA.transitions self h ++ added.
Proof.
  intros G [st Hst]. unfold LexerNFA.transitions. nfa_norm.
  by rewrite (gr_self _ _ _ _ _ G), Hst.
Qed.

Lemma transitions_grown_other h h' self k added n :
  grown h h' self k added -> (n < ids h)%nat -> n <> self ->
  LexerNFA.transitions n h' = LexerNFA.transitions n h.
Proof.
  intros G Hn Hne. unfold LexerNFA.transitions. nfa_norm.
  by rewrite (gr_frame _ _ _ _ _ G).
Qed.

Lemma grown_is_Some h h' self k added n :
  grown h h' self k added -> is_Some (nodes h !! n) -> (n < ids h)%nat ->
  is_Some (nodes h' !! n).
Proof.
  intros G [st Hst] Hn. destruct (decide (n = self)) as [->|Hne].
  - rewrite (gr_self _ _ _ _ _ G), Hst. by eexists.
  - rewrite (gr_frame _ _ _ _ _ G) by done. by eexists.
Qed.

Lemma add_empty_transition_eq self (h : store (list ((Z * Z) * nat))) :
  LexerNFA.add_empty_transition self h =
    (ids h, update self (LexerNFA.append_edge EMPTY (ids h))
              (construct [] PyNone h).2).
Proof. reflexivity. Qed.

Lemma add_transition_range_eq self lo hi (h : store (list ((Z * Z) * nat))) :
  LexerNFA.add_transition_range self lo hi h =
    (ids h, update self (LexerNFA.append_edge (lo, hi) (ids h))
              (construct [] PyNone h).2).
Proof. reflexivity. Qed.

Lemma tree_absent_or_not (t : RegexpTree) : t = NoTree \/ t <> NoTree.
Proof. destruct t; [by left|by right..]. Qed.

Lemma entry_edge_present regexp first :
  regexp <> NoTree -> entry_edge regexp first = [(EMPTY, first)].
Proof. by destruct regexp. Qed.

(** What one call of [add_rule] does to the store: the fragment it
    builds, where it starts and where it ends. *)
Lemma add_rule_grown regexp :
  forall self (h : store (list ((Z * Z) * nat))) first last h',
  store_wf h -> (self < ids h)%nat ->
  LexerNFA.add_rule regexp self h = ((first, last), h') ->
  grown h h' self (states_of regexp) (entry_edge regexp (ids h)) /\
  (regexp = NoTree -> first = self /\ last = self) /\
  (regexp <> NoTree ->
   first = ids h /\ (ids h <= last < ids h')%nat /\
   LexerNFA.transitions last h' = []).
Proof.
  induction regexp as [|lo hi next IHn|b1 IHf b2 IHs next IHn
                      |pattern IHp next IHn];
    intros self h first last h' Hwf Hself Heq.
  - inversion Heq; subst. split; [by apply grown_refl|]. by split.
  - cbn [LexerNFA.add_rule] in Heq.
    rewrite add_empty_transition_eq in Heq.
    destruct (grown_new_edge EMPTY self h Hwf Hself) as [G1 T1].
    set (h1 := update self _ _) in *.
    pose proof (gr_ids _ _ _ _ _ G1) as I1.
    rewrite add_transition_range_eq in Heq.
    destruct (grown_new_edge (lo, hi) (ids h) h1 (gr_wf _ _ _ _ _ G1)
                ltac:(nfa_lia)) as [G2 T2].
    set (h2 := update (ids h) _ _) in *.
    pose proof (gr_ids _ _ _ _ _ G2) as I2.
    destruct (LexerNFA.add_rule next _ _) as [[f' l'] h3] eqn:E.
    cbv beta iota zeta in Heq. injection Heq as <- <- <-.
    assert (Hlt : (ids h1 < ids h2)%nat) by nfa_lia.
    destruct (IHn _ _ _ _ _ (gr_wf _ _ _ _ _ G2) Hlt E)
      as (G3 & Habs & Hpres).
    pose proof (gr_ids _ _ _ _ _ G3) as I3.
    split; [|split; [done|intros _]].
    + eapply grown_count; [|eapply grown_under; [| |eapply grown_under|exact G3]];
        [| | | | |exact G1|exact G2]; simpl; nfa_lia.
    + split; [done|]. nfa_norm.
      destruct (tree_absent_or_not next) as [->|Hne].
      * destruct (Habs eq_refl) as [_ ->]. split; [simpl in *; nfa_lia|].
        rewrite (transitions_grown_self _ _ _ _ _ G3), T2, app_nil_r; [done|].
        destruct (gr_new _ _ _ _ _ G2 (ids h1)) as (st & -> & _); [nfa_lia|by eexists].
      * destruct (Hpres Hne) as (_ & ? & ?). split; [nfa_lia|done].
  - cbn [LexerNFA.add_rule] in Heq.
    rewrite add_empty_transition_eq in Heq.
    destruct (grown_new_edge EMPTY self h Hwf Hself) as [G1 T1].
    set (h1 := update self _ _) in *.
    pose proof (gr_ids _ _ _ _ _ G1) as I1.
    destruct (LexerNFA.add_rule b1 _ _) as [[f1 l1] h2] eqn:E1.
    assert (Hlt1 : (ids h < ids h1)%nat) by nfa_lia.
    destruct (IHf _ _ _ _ _ (gr_wf _ _ _ _ _ G1) Hlt1 E1)
      as (G2 & Habs1 & Hpres1).
    pose proof (gr_ids _ _ _ _ _ G2) as I2.
    destruct (LexerNFA.add_rule b2 _ _) as [[f2 l2] h3] eqn:E2.
    assert (Hlt2 : (ids h < ids h2)%nat) by nfa_lia.
    destruct (IHs _ _ _ _ _ (gr_wf _ _ _ _ _ G2) Hlt2 E2)
      as (G3 & Habs2 & Hpres2).
    pose proof (gr_ids _ _ _ _ _ G3) as I3.
    assert (Hl1 : (ids h <= l1 < ids h2)%nat).
    { destruct (tree_absent_or_not b1) as [->|Hne].
      - destruct (Habs1 eq_refl) as [_ ->]. nfa_lia.
      - destruct (Hpres1 Hne) as (_ & ? & _). nfa_lia. }
    assert (Hl2 : (ids h <= l2 < ids h3)%nat).
    { destruct (tree_absent_or_not b2) as [->|Hne].
      - destruct (Habs2 eq_refl) as [_ ->]. nfa_lia.
      - destruct (Hpres2 Hne) as (_ & ? & _). nfa_lia. }
    cbv beta iota zeta in Heq. cbn [Datatypes.snd] in Heq.
    rewrite add_empty_transition_eq in Heq.
    destruct (grown_new_edge EMPTY l1 h3 (gr_wf _ _ _ _ _ G3) ltac:(nfa_lia))
      as [G4 T4].
    set (h4 := update l1 _ _) in *.
    pose proof (gr_ids _ _ _ _ _ G4) as I4.
    pose proof (grown_edge EMPTY l2 (ids h3) h4 (gr_wf _ _ _ _ _ G4)) as G5.
    unfold LexerNFA.add_empty_transition_to_state in Heq.
    set (h5 := update l2 _ h4) in *.
    pose proof (gr_ids _ _ _ _ _ G5) as I5.
    cbv beta iota zeta in Heq. injection Heq as <- <- <-.
    split; [|split; [done|intros _]].
    + eapply grown_count;
        [|eapply grown_under;
           [| |eapply grown_under;
                [| |eapply grown_under;
                     [| |eapply grown_under; [| |exact G1|exact G2]
                      |exact G3]
                 |exact G4]
            |exact G5]]; simpl; nfa_lia.
    + split; [done|]. split; [nfa_lia|]. nfa_norm.
      rewrite (transitions_grown_other _ _ _ _ _ _ G5), T4; [done|nfa_lia|nfa_lia].
  - cbn [LexerNFA.add_rule] in Heq.
    rewrite add_empty_transition_eq in Heq.
    destruct (grown_new_edge EMPTY self h Hwf Hself) as [G1 T1].
    set (h1 := update self _ _) in *.
    pose proof (gr_ids _ _ _ _ _ G1) as I1.
    destruct (LexerNFA.add_rule pattern _ _) as [[s1 s2] h2] eqn:E1.
    assert (Hlt1 : (ids h < ids h1)%nat) by nfa_lia.
    destruct (IHp _ _ _ _ _ (gr_wf _ _ _ _ _ G1) Hlt1 E1)
      as (G2 & Habs1 & Hpres1).
    pose proof (gr_ids _ _ _ _ _ G2) as I2.
    assert (Hs2 : (ids h <= s2 < ids h2)%nat).
    { destruct (tree_absent_or_not pattern) as [->|Hne].
      - destruct (Habs1 eq_refl) as [_ ->]. nfa_lia.
      - destruct (Hpres1 Hne) as (_ & ? & _). nfa_lia. }
    rewrite add_empty_transition_eq in Heq.
    destruct (grown_new_edge EMPTY s2 h2 (gr_wf _ _ _ _ _ G2) ltac:(nfa_lia))
      as [G3 T3].
    set (h3 := update s2 _ _) in *.
    pose proof (gr_ids _ _ _ _ _ G3) as I3.
    pose proof (grown_edge EMPTY s2 s1 h3 (gr_wf _ _ _ _ _ G3)) as G4.
    unfold LexerNFA.add_empty_transition_to_state in Heq.
    set (h4 := update s2 _ h3) in *.
    pose proof (gr_ids _ _ _ _ _ G4) as I4.
    pose proof (grown_edge EMPTY (ids h) (ids h2) h4 (gr_wf _ _ _ _ _ G4)) as G5.
    set (h5 := update (ids h) _ h4) in *.
    pose proof (gr_ids _ _ _ _ _ G5) as I5.
    destruct (LexerNFA.add_rule next _ _) as [[f' l'] h6] eqn:E2.
    assert (Hlt5 : (ids h2 < ids h5)%nat) by nfa_lia.
    destruct (IHn _ _ _ _ _ (gr_wf _ _ _ _ _ G5) Hlt5 E2)
      as (G6 & Habs2 & Hpres2).
    pose proof (gr_ids _ _ _ _ _ G6) as I6.
    cbv beta iota zeta in Heq. injection Heq as <- <- <-.
    split; [|split; [done|intros _]].
    + eapply grown_count;
        [|eapply grown_under;
           [| |eapply grown_under;
                [| |eapply grown_under;
                     [| |eapply grown_under;
                          [| |eapply grown_under; [| |exact G1|exact G2]
                           |exact G3]
                      |exact G4]
                 |exact G5]
            |exact G6]]; simpl; nfa_lia.
    + split; [done|]. nfa_norm.
      assert (T5 : LexerNFA.transitions (ids h2) h5 = []).
      { rewrite (transitions_grown_other _ _ _ _ _ _ G5) by nfa_lia.
        rewrite (transitions_grown_other _ _ _ _ _ _ G4) by nfa_lia. done. }
      destruct (tree_absent_or_not next) as [->|Hne].
      * destruct (Habs2 eq_refl) as [_ ->]. split; [simpl in *; nfa_lia|].
        rewrite (transitions_grown_self _ _ _ _ _ G6), T5, app_nil_r; [done|].
        eapply grown_is_Some; [exact G5| |nfa_lia].
        eapply grown_is_Some; [exact G4| |nfa_lia].
        destruct (gr_new _ _ _ _ _ G3 (ids h2)) as (st & -> & _); [nfa_lia|by eexists].
      * destruct (Hpres2 Hne) as (_ & ? & ?). split; [nfa_lia|done].
Qed.

Lemma empty_targets_app (l1 l2 : list ((Z * Z) * nat)) :
  (filter (fun tr => tr.1 = EMPTY) (l1 ++ l2)).*2 =
  (filter (fun tr => tr.1 = EMPTY) l1).*2 ++ (filter (fun tr => tr.1 = EMPTY) l2).*2.
Proof. by rewrite filter_app, fmap_app. Qed.

Lemma get_transition_for_empty_string_app self h h' l :
  LexerNFA.transitions self h' = LexerNFA.transitions self h ++ l ->
  LexerNFA.get_transition_for_empty_string self h' =
    LexerNFA.get_transition_for_empty_string self h
      ++ (filter (fun tr => tr.1 = EMPTY) l).*2.
Proof.
  intros Hl. unfold LexerNFA.get_transition_for_empty_string.
  by rewrite Hl, empty_targets_app.
Qed.

(** X11: [add_rule] builds its fragment out of new states only.  From a
    well-formed store and a state [self] of it, the call constructs
    [states_of regexp] states, with the next ids in a row and none of
    them terminal; of the states that were there it changes [self]
    alone, which receives one empty transition to the fragment's first
    state (nothing for the absent tree); and the fragment's last state is
    one of the new ones and has no transition going out. *)
Theorem nfa_add_rule_builds_a_fresh_fragment
    (regexp : RegexpTree) (self : nat) (h : store (list ((Z * Z) * nat))) :
  store_wf h ->
  is_Some (nodes h !! self) ->
  let r := LexerNFA.add_rule regexp self h in
  ids r.2 = (ids h + states_of regexp)%nat /\
  store_wf r.2 /\
  (forall n, (n < ids h)%nat -> n <> self -> nodes r.2 !! n = nodes h !! n) /\
  LexerNFA.transitions self r.2 =
    LexerNFA.transitions self h ++ entry_edge regexp r.1.1 /\
  terminal_token <$> nodes r.2 !! self = terminal_token <$> nodes h !! self /\
  (forall n, (ids h <= n < ids r.2)%nat ->
     exists st, nodes r.2 !! n = Some st /\ terminal_token st = PyNone /\
                id st = n) /\
  (regexp = NoTree -> r.1 = (self, self)) /\
  (regexp <> NoTree ->
     r.1.1 = ids h /\ (ids h <= r.1.2 < ids r.2)%nat /\
     LexerNFA.transitions r.1.2 r.2 = []).
Proof.
  intros Hwf Hself r.
  destruct (LexerNFA.add_rule regexp self h) as [[first last] h'] eqn:Heq.
  subst r. cbn [Datatypes.fst Datatypes.snd]. nfa_norm.
  destruct (add_rule_grown regexp self h first last h' Hwf
              (store_wf_lt h self Hwf Hself) Heq) as (G & Habs & Hpres).
  split; [apply G|]. split; [apply G|]. split; [apply G|]. split.
  { rewrite (transitions_grown_self _ _ _ _ _ G Hself). f_equal.
    destruct (tree_absent_or_not regexp) as [->|Hne]; [done|].
    by destruct (Hpres Hne) as (-> & _). }
  split.
  { rewrite (gr_self _ _ _ _ _ G). by destruct (nodes h !! self). }
  split; [apply G|]. split; [|done].
  intros Hr. by destruct (Habs Hr) as [-> ->].
Qed.

Lemma store_wf_start max_handled_repeat :
  store_wf (start_store ([] : list ((Z * Z) * nat)) max_handled_repeat).
Proof. unfold store_wf, start_store; simpl. apply map_Forall_singleton. lia. Qed.

Lemma nfa_add_rule_builds_a_fresh_fragment_witness :
  let h := start_store ([] : list ((Z * Z) * nat)) None in
  let regexp := kleene (single 97 97 NoTree) (single 98 98 NoTree) in
  let r := LexerNFA.add_rule regexp 0%nat h in
  ids r.2 = (ids h + states_of regexp)%nat /\
  store_wf r.2 /\
  (forall n, (n < ids h)%nat -> n <> 0%nat -> nodes r.2 !! n = nodes h !! n) /\
  LexerNFA.transitions 0%nat r.2 =
    LexerNFA.transitions 0%nat h ++ entry_edge regexp r.1.1 /\
  terminal_token <$> nodes r.2 !! 0%nat = terminal_token <$> nodes h !! 0%nat /\
  (forall n, (ids h <= n < ids r.2)%nat ->
     exists st, nodes r.2 !! n = Some st /\ terminal_token st = PyNone /\
                id st = n) /\
  (regexp = NoTree -> r.1 = (0%nat, 0%nat)) /\
  (regexp <> NoTree ->
     r.1.1 = ids h /\ (ids h <= r.1.2 < ids r.2)%nat /\
     LexerNFA.transitions r.1.2 r.2 = []).
Proof.
  intros h regexp.
  apply (nfa_add_rule_builds_a_fresh_fragment regexp 0%nat h).
  - unfold store_wf. apply (bool_decide_unpack _). vm_compute. exact I.
  - by eexists.
Defined.

Lemma transitions_new_state (h h' : store (list ((Z * Z) * nat))) self k added n :
  grown h h' self k added -> (ids h <= n < ids h')%nat ->
  is_Some (nodes h' !! n).
Proof. intros G Hn. destruct (gr_new _ _ _ _ _ G n Hn) as (st & -> & _). by eexists. Qed.

(** X12: the fragment of a 'single' node.  [self] receives an empty
    transition to [first], the next id; [first] has one transition, on
    the range, to the state after it, so that stepping from [first] on a
    code point gives that state when the code point is in [min..max] and
    nothing otherwise; the continuation is compiled from that state. *)
Theorem nfa_single_fragment
    (min_ascii max_ascii : Z) (next : RegexpTree) (self : nat)
    (h : store (list ((Z * Z) * nat))) :
  store_wf h ->
  is_Some (nodes h !! self) ->
  let r := LexerNFA.add_rule (single min_ascii max_ascii next) self h in
  let first := ids h in
  r.1.1 = first /\
  LexerNFA.get_transition_for_empty_string self r.2 =
    LexerNFA.get_transition_for_empty_string self h ++ [first] /\
  LexerNFA.transitions first r.2 = [((min_ascii, max_ascii), S first)] /\
  (forall c, LexerNFA.get_transition_states_for_lookout first c r.2 =
             if value_is_in_range c (min_ascii, max_ascii)
             then [S first] else []) /\
  LexerNFA.transitions (S first) r.2 = entry_edge next (S (S first)) /\
  (next = NoTree -> r.1.2 = S first).
Proof.
  intros Hwf Hself r first.
  assert (Hlt : (self < ids h)%nat) by (by apply store_wf_lt).
  destruct (LexerNFA.add_rule (single min_ascii max_ascii next) self h)
    as [[f l] h'] eqn:Heq.
  destruct (add_rule_grown _ self h f l h' Hwf Hlt Heq) as (G & _ & Hpres).
  destruct (Hpres ltac:(done)) as (Hf & _ & _).
  cbn [LexerNFA.add_rule] in Heq.
  rewrite add_empty_transition_eq in Heq.
  destruct (grown_new_edge EMPTY self h Hwf Hlt) as [G1 T1].
  set (h1 := update self _ _) in *.
  pose proof (gr_ids _ _ _ _ _ G1) as I1.
  rewrite add_transition_range_eq in Heq.
  destruct (grown_new_edge (min_ascii, max_ascii) (ids h) h1
              (gr_wf _ _ _ _ _ G1) ltac:(lia)) as [G2 T2].
  set (h2 := update (ids h) _ _) in *.
  pose proof (gr_ids _ _ _ _ _ G2) as I2.
  destruct (LexerNFA.add_rule next _ _) as [[f' l'] h3] eqn:E.
  assert (Hlt2 : (ids h1 < ids h2)%nat) by nfa_lia.
  destruct (add_rule_grown _ _ _ _ _ _ (gr_wf _ _ _ _ _ G2) Hlt2 E)
    as (G3 & Habs3 & _).
  cbv beta iota zeta in Heq. injection Heq as _ <- <-.
  subst r. cbn [Datatypes.fst Datatypes.snd]. nfa_norm.
  assert (Hfirst : LexerNFA.transitions first h3 =
                   [((min_ascii, max_ascii), S first)]).
  { unfold first.
    rewrite (transitions_grown_other _ _ _ _ _ _ G3) by nfa_lia.
    rewrite (transitions_grown_self _ _ _ _ _ G2), T1.
    - simpl. repeat f_equal; try nfa_lia.
    - eapply transitions_new_state; [exact G1|nfa_lia]. }
  split; [done|]. split.
  { rewrite (get_transition_for_empty_string_app self h h3 [(EMPTY, ids h)]).
    - by rewrite filter_cons_True.
    - by rewrite (transitions_grown_self _ _ _ _ _ G Hself). }
  split; [done|]. split.
  { intros c. unfold LexerNFA.get_transition_states_for_lookout.
    rewrite Hfirst. nfa_norm.
    destruct (value_is_in_range c (min_ascii, max_ascii)) eqn:Hc.
    - by rewrite filter_cons_True.
    - rewrite filter_cons_False; [done|]. simpl. by rewrite Hc. }
  split.
  { replace (S first) with (ids h1) by (unfold first; nfa_lia).
    rewrite (transitions_grown_self _ _ _ _ _ G3), T2.
    - simpl. unfold first. repeat f_equal; try nfa_lia.
    - eapply transitions_new_state; [exact G2|nfa_lia]. }
  intros ->. destruct (Habs3 eq_refl) as [_ ->]. unfold first. nfa_lia.
Qed.

Lemma nfa_single_fragment_witness :
  let h := start_store ([] : list ((Z * Z) * nat)) None in
  let r := LexerNFA.add_rule (single 97 122 NoTree) 0%nat h in
  let first := ids h in
  r.1.1 = first /\
  LexerNFA.get_transition_for_empty_string 0%nat r.2 =
    LexerNFA.get_transition_for_empty_string 0%nat h ++ [first] /\
  LexerNFA.transitions first r.2 = [((97, 122), S first)] /\
  (forall c, LexerNFA.get_transition_states_for_lookout first c r.2 =
             if value_is_in_range c (97, 122) then [S first] else []) /\
  LexerNFA.transitions (S first) r.2 = entry_edge NoTree (S (S first)) /\
  (NoTree = NoTree -> r.1.2 = S first).
Proof.
  intros h.
  apply (nfa_single_fragment 97 122 NoTree 0%nat h).
  - unfold store_wf. apply (bool_decide_unpack _). vm_compute. exact I.
  - by eexists.
Defined.

(** X13: the fragment of a 'union' node.  Both branches are compiled
    from [first]; the last state of each branch that is present gets one
    transition, the empty one to the joined state, and a branch that is
    absent gives [first] itself that empty transition; the joined state
    is the last state constructed and the fragment's [last], and it has
    no transition going out: the continuation of the node is compiled
    nowhere. *)
Theorem nfa_union_fragment
    (fst_tree snd_tree next : RegexpTree) (self : nat)
    (h : store (list ((Z * Z) * nat))) :
  store_wf h ->
  is_Some (nodes h !! self) ->
  let first := ids h in
  let r1 := LexerNFA.add_rule fst_tree first
              (LexerNFA.add_empty_transition self h).2 in
  let r2 := LexerNFA.add_rule snd_tree first r1.2 in
  let r := LexerNFA.add_rule (union fst_tree snd_tree next) self h in
  let joined := ids r2.2 in
  r.1 = (first, joined) /\
  ids r.2 = S joined /\
  LexerNFA.transitions first r.2 =
    entry_edge fst_tree (S first) ++ entry_edge snd_tree (ids r1.2)
      ++ match fst_tree with NoTree => [(EMPTY, joined)] | _ => [] end
      ++ match snd_tree with NoTree => [(EMPTY, joined)] | _ => [] end /\
  (fst_tree <> NoTree ->
     LexerNFA.transitions r1.1.2 r.2 = [(EMPTY, joined)]) /\
  (snd_tree <> NoTree ->
     LexerNFA.transitions r2.1.2 r.2 = [(EMPTY, joined)]) /\
  LexerNFA.transitions joined r.2 = [].
Proof.
  intros Hwf Hself first r1 r2 r joined.
  assert (Hlt : (self < ids h)%nat) by (by apply store_wf_lt).
  subst r r1 r2 joined first. cbn [LexerNFA.add_rule].
  rewrite !add_empty_transition_eq. cbn [Datatypes.snd].
  destruct (grown_new_edge EMPTY self h Hwf Hlt) as [G1 T1].
  set (h1 := update self _ _) in *.
  pose proof (gr_ids _ _ _ _ _ G1) as I1.
  assert (Hlt1 : (ids h < ids h1)%nat) by nfa_lia.
  nfa_norm.
  destruct (LexerNFA.add_rule fst_tree _ _) as [[f1 l1] h2] eqn:E1.
  destruct (add_rule_grown _ _ _ _ _ _ (gr_wf _ _ _ _ _ G1) Hlt1 E1)
    as (G2 & Habs1 & Hpres1).
  pose proof (gr_ids _ _ _ _ _ G2) as I2.
  assert (Hlt2 : (ids h < ids h2)%nat) by nfa_lia.
  cbn [Datatypes.snd]. nfa_norm.
  destruct (LexerNFA.add_rule snd_tree _ _) as [[f2 l2] h3] eqn:E2.
  destruct (add_rule_grown _ _ _ _ _ _ (gr_wf _ _ _ _ _ G2) Hlt2 E2)
    as (G3 & Habs2 & Hpres2).
  pose proof (gr_ids _ _ _ _ _ G3) as I3.
  assert (Hl1 : (ids h <= l1 < ids h2)%nat).
  { destruct (tree_absent_or_not fst_tree) as [->|Hne].
    - destruct (Habs1 eq_refl) as [_ ->]. nfa_lia.
    - destruct (Hpres1 Hne) as (_ & ? & _). nfa_lia. }
  assert (Hl2 : (ids h <= l2 < ids h3)%nat).
  { destruct (tree_absent_or_not snd_tree) as [->|Hne].
    - destruct (Habs2 eq_refl) as [_ ->]. nfa_lia.
    - destruct (Hpres2 Hne) as (_ & ? & _). nfa_lia. }
  cbv beta iota zeta. cbn [Datatypes.fst Datatypes.snd].
  rewrite add_empty_transition_eq.
  destruct (grown_new_edge EMPTY l1 h3 (gr_wf _ _ _ _ _ G3) ltac:(nfa_lia))
    as [G4 T4].
  set (h4 := update l1 _ _) in *.
  pose proof (gr_ids _ _ _ _ _ G4) as I4.
  pose proof (grown_edge EMPTY l2 (ids h3) h4 (gr_wf _ _ _ _ _ G4)) as G5.
  unfold LexerNFA.add_empty_transition_to_state.
  set (h5 := update l2 _ h4) in *.
  pose proof (gr_ids _ _ _ _ _ G5) as I5.
  cbn [Datatypes.fst Datatypes.snd]. nfa_norm.
  assert (S1 : is_Some (nodes h1 !! ids h)).
  { eapply transitions_new_state; [exact G1|nfa_lia]. }
  assert (S2 : is_Some (nodes h2 !! ids h)).
  { eapply grown_is_Some; [exact G2|done|nfa_lia]. }
  assert (S3 : is_Some (nodes h3 !! ids h)).
  { eapply grown_is_Some; [exact G3|done|nfa_lia]. }
  assert (F2 : LexerNFA.transitions (ids h) h2 = entry_edge fst_tree (ids h1)).
  { by rewrite (transitions_grown_self _ _ _ _ _ G2 S1), T1. }
  assert (F3 : LexerNFA.transitions (ids h) h3 =
               entry_edge fst_tree (ids h1) ++ entry_edge snd_tree (ids h2)).
  { by rewrite (transitions_grown_self _ _ _ _ _ G3 S2), F2. }
  split; [done|]. split; [nfa_lia|]. split; [|split; [|split]].
  - replace (S (ids h)) with (ids h1) by nfa_lia.
    destruct (tree_absent_or_not fst_tree) as [->|Hne1];
      destruct (tree_absent_or_not snd_tree) as [->|Hne2].
    + destruct (Habs1 eq_refl) as [_ ->]. destruct (Habs2 eq_refl) as [_ ->].
      assert (S4 : is_Some (nodes h4 !! ids h)).
      { eapply grown_is_Some; [exact G4|done|nfa_lia]. }
      rewrite (transitions_grown_self _ _ _ _ _ G5 S4).
      rewrite (transitions_grown_self _ _ _ _ _ G4 S3). by rewrite F3.
    + destruct (Habs1 eq_refl) as [_ ->].
      destruct (Hpres2 Hne2) as (_ & ? & _).
      rewrite (transitions_grown_other _ _ _ _ _ _ G5) by nfa_lia.
      rewrite (transitions_grown_self _ _ _ _ _ G4 S3), F3.
      destruct snd_tree; [done|..]; by rewrite app_nil_r, app_assoc.
    + destruct (Habs2 eq_refl) as [_ ->].
      destruct (Hpres1 Hne1) as (_ & ? & _).
      assert (S4 : is_Some (nodes h4 !! ids h)).
      { eapply grown_is_Some; [exact G4|done|nfa_lia]. }
      rewrite (transitions_grown_self _ _ _ _ _ G5 S4).
      rewrite (transitions_grown_other _ _ _ _ _ _ G4) by nfa_lia.
      rewrite F3. by destruct fst_tree.
    + destruct (Hpres1 Hne1) as (_ & ? & _).
      destruct (Hpres2 Hne2) as (_ & ? & _).
      rewrite (transitions_grown_other _ _ _ _ _ _ G5) by nfa_lia.
      rewrite (transitions_grown_other _ _ _ _ _ _ G4) by nfa_lia.
      rewrite F3. destruct fst_tree, snd_tree; try done; by rewrite !app_nil_r.
  - intros Hne1. destruct (Hpres1 Hne1) as (_ & ? & T).
    assert (l1 <> l2).
    { destruct (tree_absent_or_not snd_tree) as [->|Hne2].
      - destruct (Habs2 eq_refl) as [_ ->]. nfa_lia.
      - destruct (Hpres2 Hne2) as (_ & ? & _). nfa_lia. }
    rewrite (transitions_grown_other _ _ _ _ _ _ G5) by nfa_lia.
    rewrite (transitions_grown_self _ _ _ _ _ G4).
    + rewrite (transitions_grown_other _ _ _ _ _ _ G3) by nfa_lia.
      by rewrite T.
    + eapply grown_is_Some; [exact G3| |nfa_lia].
      eapply transitions_new_state; [exact G2|nfa_lia].
  - intros Hne2. destruct (Hpres2 Hne2) as (_ & ? & T).
    rewrite (transitions_grown_self _ _ _ _ _ G5).
    + rewrite (transitions_grown_other _ _ _ _ _ _ G4) by nfa_lia.
      by rewrite T.
    + eapply grown_is_Some; [exact G4| |nfa_lia].
      eapply transitions_new_state; [exact G3|nfa_lia].
  - rewrite (transitions_grown_other _ _ _ _ _ _ G5) by nfa_lia. done.
Qed.

Lemma nfa_union_fragment_witness :
  let h := start_store ([] : list ((Z * Z) * nat)) None in
  let fst_tree := single 97 97 NoTree in
  let snd_tree := NoTree in
  let first := ids h in
  let r1 := LexerNFA.add_rule fst_tree first
              (LexerNFA.add_empty_transition 0%nat h).2 in
  let r2 := LexerNFA.add_rule snd_tree first r1.2 in
  let r := LexerNFA.add_rule (union fst_tree snd_tree (single 99 99 NoTree))
             0%nat h in
  let joined := ids r2.2 in
  r.1 = (first, joined) /\
  ids r.2 = S joined /\
  LexerNFA.transitions first r.2 =
    entry_edge fst_tree (S first) ++ entry_edge snd_tree (ids r1.2)
      ++ match fst_tree with NoTree => [(EMPTY, joined)] | _ => [] end
      ++ match snd_tree with NoTree => [(EMPTY, joined)] | _ => [] end /\
  (fst_tree <> NoTree ->
     LexerNFA.transitions r1.1.2 r.2 = [(EMPTY, joined)]) /\
  (snd_tree <> NoTree ->
     LexerNFA.transitions r2.1.2 r.2 = [(EMPTY, joined)]) /\
  LexerNFA.transitions joined r.2 = [].
Proof.
  intros h fst_tree snd_tree.
  apply (nfa_union_fragment fst_tree snd_tree (single 99 99 NoTree) 0%nat h).
  - unfold store_wf. apply (bool_decide_unpack _). vm_compute. exact I.
  - by eexists.
Defined.

(** X14: the fragment of a 'kleene' node.  The pattern is compiled from
    [first]; the last state of the pattern gets an empty transition to
    the new state [s3] and one back to the first state of the pattern;
    [first] gets an empty transition to [s3]; the continuation is
    compiled from [s3].  When the pattern is absent the two ends of the
    pattern are [first] itself, which then loops on itself by an empty
    transition. *)
Theorem nfa_kleene_fragment
    (pattern next : RegexpTree) (self : nat)
    (h : store (list ((Z * Z) * nat))) :
  store_wf h ->
  is_Some (nodes h !! self) ->
  let first := ids h in
  let r1 := LexerNFA.add_rule pattern first
              (LexerNFA.add_empty_transition self h).2 in
  let s1 := r1.1.1 in
  let s2 := r1.1.2 in
  let s3 := ids r1.2 in
  let r := LexerNFA.add_rule (kleene pattern next) self h in
  r.1.1 = first /\
  LexerNFA.transitions s3 r.2 = entry_edge next (S s3) /\
  (next = NoTree -> r.1.2 = s3) /\
  (pattern <> NoTree ->
     s1 = S first /\
     LexerNFA.transitions first r.2 = [(EMPTY, s1); (EMPTY, s3)] /\
     LexerNFA.transitions s2 r.2 = [(EMPTY, s3); (EMPTY, s1)]) /\
  (pattern = NoTree ->
     LexerNFA.transitions first r.2 =
       [(EMPTY, s3); (EMPTY, first); (EMPTY, s3)]).
Proof.
  intros Hwf Hself first r1 s1 s2 s3 r.
  assert (Hlt : (self < ids h)%nat) by (by apply store_wf_lt).
  subst r s3 s2 s1 r1 first. cbn [LexerNFA.add_rule].
  rewrite !add_empty_transition_eq. cbn [Datatypes.snd].
  destruct (grown_new_edge EMPTY self h Hwf Hlt) as [G1 T1].
  set (h1 := update self _ _) in *.
  pose proof (gr_ids _ _ _ _ _ G1) as I1.
  assert (Hlt1 : (ids h < ids h1)%nat) by nfa_lia.
  nfa_norm.
  destruct (LexerNFA.add_rule pattern _ _) as [[s1 s2] h2] eqn:E1.
  destruct (add_rule_grown _ _ _ _ _ _ (gr_wf _ _ _ _ _ G1) Hlt1 E1)
    as (G2 & Habs1 & Hpres1).
  pose proof (gr_ids _ _ _ _ _ G2) as I2.
  assert (Hs2 : (ids h <= s2 < ids h2)%nat).
  { destruct (tree_absent_or_not pattern) as [->|Hne].
    - destruct (Habs1 eq_refl) as [_ ->]. nfa_lia.
    - destruct (Hpres1 Hne) as (_ & ? & _). nfa_lia. }
  cbn [Datatypes.fst Datatypes.snd].
  rewrite add_empty_transition_eq.
  destruct (grown_new_edge EMPTY s2 h2 (gr_wf _ _ _ _ _ G2) ltac:(nfa_lia))
    as [G3 T3].
  set (h3 := update s2 _ _) in *.
  pose proof (gr_ids _ _ _ _ _ G3) as I3.
  pose proof (grown_edge EMPTY s2 s1 h3 (gr_wf _ _ _ _ _ G3)) as G4.
  unfold LexerNFA.add_empty_transition_to_state.
  set (h4 := update s2 _ h3) in *.
  pose proof (gr_ids _ _ _ _ _ G4) as I4.
  pose proof (grown_edge EMPTY (ids h) (ids h2) h4 (gr_wf _ _ _ _ _ G4)) as G5.
  set (h5 := update (ids h) _ h4) in *.
  pose proof (gr_ids _ _ _ _ _ G5) as I5.
  nfa_norm.
  destruct (LexerNFA.add_rule next _ _) as [[f' l'] h6] eqn:E2.
  assert (Hlt5 : (ids h2 < ids h5)%nat) by nfa_lia.
  destruct (add_rule_grown _ _ _ _ _ _ (gr_wf _ _ _ _ _ G5) Hlt5 E2)
    as (G6 & Habs2 & _).
  pose proof (gr_ids _ _ _ _ _ G6) as I6.
  cbn [Datatypes.fst Datatypes.snd]. nfa_norm.
  assert (S1 : is_Some (nodes h1 !! ids h)).
  { eapply transitions_new_state; [exact G1|nfa_lia]. }
  assert (S2 : is_Some (nodes h2 !! ids h)).
  { eapply grown_is_Some; [exact G2|done|nfa_lia]. }
  assert (S3 : is_Some (nodes h3 !! ids h2)).
  { eapply transitions_new_state; [exact G3|nfa_lia]. }
  assert (T5 : LexerNFA.transitions (ids h2) h5 = []).
  { rewrite (transitions_grown_other _ _ _ _ _ _ G5) by nfa_lia.
    rewrite (transitions_grown_other _ _ _ _ _ _ G4) by nfa_lia. done. }
  assert (S5 : is_Some (nodes h5 !! ids h2)).
  { eapply grown_is_Some; [exact G5| |nfa_lia].
    eapply grown_is_Some; [exact G4|done|nfa_lia]. }
  split; [done|]. split.
  { rewrite (transitions_grown_self _ _ _ _ _ G6 S5), T5. simpl.
    repeat f_equal; try nfa_lia. }
  split.
  { intros ->. by destruct (Habs2 eq_refl) as [_ ->]. }
  split.
  - intros Hne. destruct (Hpres1 Hne) as (-> & ? & T2).
    split; [nfa_lia|]. split.
    + rewrite (transitions_grown_other _ _ _ _ _ _ G6) by nfa_lia.
      rewrite (transitions_grown_self _ _ _ _ _ G5).
      * rewrite (transitions_grown_other _ _ _ _ _ _ G4) by nfa_lia.
        rewrite (transitions_grown_other _ _ _ _ _ _ G3) by nfa_lia.
        rewrite (transitions_grown_self _ _ _ _ _ G2 S1), T1.
        by rewrite (entry_edge_present _ _ Hne).
      * eapply grown_is_Some; [exact G4| |nfa_lia].
        eapply grown_is_Some; [exact G3|done|nfa_lia].
    + rewrite (transitions_grown_other _ _ _ _ _ _ G6) by nfa_lia.
      rewrite (transitions_grown_other _ _ _ _ _ _ G5) by nfa_lia.
      assert (Ss2 : is_Some (nodes h2 !! s2)).
      { eapply transitions_new_state; [exact G2|nfa_lia]. }
      rewrite (transitions_grown_self _ _ _ _ _ G4).
      * rewrite (transitions_grown_self _ _ _ _ _ G3 Ss2), T2. done.
      * eapply grown_is_Some; [exact G3|done|nfa_lia].
  - intros ->. destruct (Habs1 eq_refl) as [-> ->].
    rewrite (transitions_grown_other _ _ _ _ _ _ G6) by nfa_lia.
    rewrite (transitions_grown_self _ _ _ _ _ G5).
    + rewrite (transitions_grown_self _ _ _ _ _ G4).
      * rewrite (transitions_grown_self _ _ _ _ _ G3 S2).
        rewrite (transitions_grown_self _ _ _ _ _ G2 S1), T1. done.
      * eapply grown_is_Some; [exact G3|done|nfa_lia].
    + eapply grown_is_Some; [exact G4| |nfa_lia].
      eapply grown_is_Some; [exact G3|done|nfa_lia].
Qed.

Lemma nfa_kleene_fragment_witness :
  let h := start_store ([] : list ((Z * Z) * nat)) None in
  let pattern := single 97 97 NoTree in
  let next := single 98 98 NoTree in
  let first := ids h in
  let r1 := LexerNFA.add_rule pattern first
              (LexerNFA.add_empty_transition 0%nat h).2 in
  let s1 := r1.1.1 in
  let s2 := r1.1.2 in
  let s3 := ids r1.2 in
  let r := LexerNFA.add_rule (kleene pattern next) 0%nat h in
  r.1.1 = first /\
  LexerNFA.transitions s3 r.2 = entry_edge next (S s3) /\
  (next = NoTree -> r.1.2 = s3) /\
  (pattern <> NoTree ->
     s1 = S first /\
     LexerNFA.transitions first r.2 = [(EMPTY, s1); (EMPTY, s3)] /\
     LexerNFA.transitions s2 r.2 = [(EMPTY, s3); (EMPTY, s1)]) /\
  (pattern = NoTree ->
     LexerNFA.transitions first r.2 =
       [(EMPTY, s3); (EMPTY, first); (EMPTY, s3)]).
Proof.
  intros h pattern next.
  apply (nfa_kleene_fragment pattern next 0%nat h).
  - unfold store_wf. apply (bool_decide_unpack _). vm_compute. exact I.
  - by eexists.
Defined.

(** *** Rules of the NFA *)

(** One turn of the loop of [LexerNFA.build], from a store. *)
Lemma nfa_build_snoc fuel rules rule token self (h : store (list ((Z * Z) * nat))) :
  LexerNFA.build fuel (rules ++ [(rule, token)]) self h =
    (h1 ← LexerNFA.build fuel rules self h;
     formated_rule ← sre_to_regexp_tree fuel rule default_max_repeat_handled;
     Returns (update (LexerNFA.add_rule formated_rule self h1).1.2
                (fun s => set_terminal_token s token)
                (LexerNFA.add_rule formated_rule self h1).2)).
Proof.
  unfold LexerNFA.build. rewrite foldl_snoc.
  destruct (foldl _ _ rules) as [h1| |]; simpl; try done.
  destruct (sre_to_regexp_tree fuel rule default_max_repeat_handled); simpl;
    try done.
  by destruct (LexerNFA.add_rule _ self h1) as [[? ?] ?].
Qed.

Lemma nfa_build_keeps fuel self rules :
  forall (h h1 : store (list ((Z * Z) * nat))),
  store_wf h -> is_Some (nodes h !! self) ->
  LexerNFA.build fuel rules self h = Returns h1 ->
  store_wf h1 /\ is_Some (nodes h1 !! self).
Proof.
  induction rules as [|[rule token] rules IH] using rev_ind;
    intros h h1 Hwf Hself Hb.
  - by inversion Hb; subst.
  - rewrite nfa_build_snoc in Hb.
    destruct (LexerNFA.build fuel rules self h) as [h0| |] eqn:Hb0;
      try discriminate.
    destruct (IH h h0 Hwf Hself Hb0) as [Hwf0 Hself0].
    simpl in Hb.
    destruct (sre_to_regexp_tree fuel rule default_max_repeat_handled)
      as [tree| |]; try discriminate.
    simpl in Hb. injection Hb as <-.
    destruct (LexerNFA.add_rule tree self h0) as [[first last] h'] eqn:Heq.
    destruct (add_rule_grown tree self h0 first last h' Hwf0
                (store_wf_lt h0 self Hwf0 Hself0) Heq) as (G & _).
    cbn [Datatypes.fst Datatypes.snd]. split.
    + apply store_wf_update, G.
    + rewrite nodes_update.
      pose proof (grown_is_Some _ _ _ _ _ self G Hself0
                    (store_wf_lt h0 self Hwf0 Hself0)) as [st Hst].
      nfa_norm. case_decide; subst; rewrite Hst; by eexists.
Qed.

(** X15: in the NFA a rule never loses its token to an earlier rule.
    When [build] has run over some rules and one more rule follows whose
    pattern translates to a tree that is not absent, [build] tags the
    state [add_rule] returns as [last] for that rule; that state was
    constructed for the rule, it ends up holding the rule's token
    ([IGNORED] for [None]), and the terminal slot of every state that was
    there before is left as it was. *)
Theorem nfa_build_tags_a_new_state
    (fuel : nat) (rules : list (list sre_token * token_value))
    (rule : list sre_token) (token : token_value) (tree : RegexpTree)
    (self : nat) (h h1 : store (list ((Z * Z) * nat))) :
  store_wf h ->
  is_Some (nodes h !! self) ->
  LexerNFA.build fuel rules self h = Returns h1 ->
  sre_to_regexp_tree fuel rule default_max_repeat_handled = Returns tree ->
  tree <> NoTree ->
  let last := (LexerNFA.add_rule tree self h1).1.2 in
  let h2 := update last (fun s => set_terminal_token s token)
              (LexerNFA.add_rule tree self h1).2 in
  LexerNFA.build fuel (rules ++ [(rule, token)]) self h = Returns h2 /\
  (ids h1 <= last < ids h2)%nat /\
  nodes h1 !! last = None /\
  terminal_token <$> nodes h2 !! last =
    Some (if is_none token then IGNORED else token) /\
  forall n, (n < ids h1)%nat ->
    terminal_token <$> nodes h2 !! n = terminal_token <$> nodes h1 !! n.
Proof.
  intros Hwf Hself Hb Htree Hne.
  destruct (nfa_build_keeps fuel self rules h h1 Hwf Hself Hb) as [Hwf1 Hself1].
  rewrite nfa_build_snoc, Hb. simpl. rewrite Htree. simpl.
  destruct (LexerNFA.add_rule tree self h1) as [[first last] h'] eqn:Heq.
  destruct (add_rule_grown tree self h1 first last h' Hwf1
              (store_wf_lt h1 self Hwf1 Hself1) Heq) as (G & _ & Hpres).
  destruct (Hpres Hne) as (_ & Hlast & _).
  cbv zeta. cbn [Datatypes.fst Datatypes.snd].
  split; [done|]. split; [exact Hlast|]. nfa_norm. split; [|split].
  - destruct (nodes h1 !! last) as [st|] eqn:Hst; [|done].
    pose proof (store_wf_lt h1 last Hwf1 ltac:(by eexists)). nfa_lia.
  - rewrite lookup_alter. case_decide; [|done].
    destruct (gr_new _ _ _ _ _ G last Hlast) as (st & -> & Hst & _). simpl.
    f_equal. apply set_terminal_token_unset.
    by rewrite terminal_exists_truthy, Hst.
  - intros n Hn. rewrite lookup_alter. case_decide; [lia|].
    destruct (decide (n = self)) as [->|Hns].
    + rewrite (gr_self _ _ _ _ _ G). by destruct (nodes h1 !! self).
    + by rewrite (gr_frame _ _ _ _ _ G).
Qed.

Lemma nfa_build_tags_a_new_state_witness :
  let h := start_store ([] : list ((Z * Z) * nat)) None in
  let h1 := update 2%nat (fun s => set_terminal_token s (PyStr "FIRST"))
              (LexerNFA.add_rule (single 97 97 NoTree) 0%nat h).2 in
  let last := (LexerNFA.add_rule (single 97 97 NoTree) 0%nat h1).1.2 in
  let h2 := update last (fun s => set_terminal_token s (PyStr "SECOND"))
              (LexerNFA.add_rule (single 97 97 NoTree) 0%nat h1).2 in
  LexerNFA.build 3 ([([literal 97], PyStr "FIRST")]
                      ++ [([literal 97], PyStr "SECOND")]) 0%nat h =
    Returns h2 /\
  (ids h1 <= last < ids h2)%nat /\
  nodes h1 !! last = None /\
  terminal_token <$> nodes h2 !! last =
    Some (if is_none (PyStr "SECOND") then IGNORED else PyStr "SECOND") /\
  forall n, (n < ids h1)%nat ->
    terminal_token <$> nodes h2 !! n = terminal_token <$> nodes h1 !! n.
Proof.
  intros h h1.
  apply (nfa_build_tags_a_new_state 3 [([literal 97], PyStr "FIRST")]
           [literal 97] (PyStr "SECOND") (single 97 97 NoTree) 0%nat h h1).
  - unfold store_wf. apply (bool_decide_unpack _). vm_compute. exact I.
  - by eexists.
  - reflexivity.
  - reflexivity.
  - discriminate.
Defined.

(** ** The DFA builder, rule by rule *)

Lemma add_rule_frontier self tokenized_regexp token d current_states d' :
  for_each advance [self] tokenized_regexp d = Done current_states d' ->
  add_rule self tokenized_regexp token d =
    for_each (fun _ current_state => modify (set_terminal current_state token))
             tt current_states d'.
Proof. intros H. unfold add_rule. by rewrite (bind_done _ _ _ _ _ H). Qed.

Lemma advance_empty_frontier lookouts d :
  for_each advance [] lookouts d = Done [] d.
Proof.
  induction lookouts as [|l ls IH]; [done|]. cbn [for_each].
  by rewrite (bind_done _ _ d [] d).
Qed.

Lemma advance_literals_on_record d : forall cs s sn,
  run d s cs = Some sn -> for_each advance [s] (literals cs) d = Done [sn] d.
Proof.
  induction cs as [|c cs IH]; intros s sn Hrun; simpl in Hrun.
  - by inversion Hrun.
  - destruct (get_next_state s c d) as [t|] eqn:Ht; [|done].
    change (literals (c :: cs)) with (literal c :: literals cs).
    cbn [for_each].
    rewrite (bind_done _ _ d [t] d); [by apply IH|].
    unfold advance. cbn [for_each].
    rewrite (bind_done _ _ d [t] d); [done|].
    rewrite (bind_done _ _ d [t] d); [done|].
    cbn [add_or_recover_lookout get_formated_lookouts_tuple].
    by apply add_single_layer_recorded.
Qed.



(** X19: a rule whose pattern starts with a token that is neither a
    literal, a class with a code point, nor a repetition (an alternation,
    a group, an anchor, 'any', ...) adds nothing to the DFA: the frontier
    becomes empty at that token, so [add_rule] returns with no state
    constructed, no transition recorded and no state tagged, whatever
    follows. *)
Theorem dfa_add_rule_unhandled_first_token
    (d : dfa) (self : nat) (lookout : sre_token) (rest : list sre_token)
    (token : token_value) :
  single_layer lookout = true ->
  get_formated_lookouts_tuple lookout = [] ->
  add_rule self (lookout :: rest) token d = Done tt d.
Proof.
  intros Hsingle Hnone.
  assert (Hstep : add_or_recover_lookout self lookout d = Done [] d).
  { destruct lookout; try discriminate Hsingle;
      cbn [add_or_recover_lookout]; by rewrite Hnone. }
  rewrite (add_rule_frontier _ _ _ _ [] d); [done|].
  cbn [for_each].
  rewrite (bind_done _ _ d [] d); [apply advance_empty_frontier|].
  unfold advance. cbn [for_each].
  rewrite (bind_done _ _ d [] d); [done|].
  by rewrite (bind_done _ _ d [] d).
Qed.

Lemma dfa_add_rule_unhandled_first_token_witness :
  add_rule 0%nat
    (branch [[literal 97]; [literal 98; literal 99]] :: [literal 100])
    (PyStr "T") (start None) = Done tt (start None).
Proof.
  apply (dfa_add_rule_unhandled_first_token (start None) 0%nat
           (branch [[literal 97]; [literal 98; literal 99]]) [literal 100]
           (PyStr "T")); reflexivity.
Defined.

(** ** The code points of a class, for the DFA *)

Lemma elem_of_class_fold items : forall (acc : gset Z) x,
  x ∈ foldl (fun formated_lookouts asciis =>
               match asciis with
               | range min max => formated_lookouts ∪ range_set min max
               | literal c => formated_lookouts ∪ {[ c ]}
               | _ => formated_lookouts
               end) acc items <->
  x ∈ acc \/
  exists item, item ∈ items /\
    match item with
    | literal c => x = c
    | range lo hi => lo <= x <= hi
    | _ => False
    end.
Proof.
  induction items as [|item items IH]; intros acc x; cbn [foldl].
  - split; [by left|]. intros [?|(? & ?%elem_of_nil & _)]; done.
  - rewrite IH. split.
    + intros [Hacc|(it & Hin & Hit)].
      * destruct item; try (by left);
          apply elem_of_union in Hacc as [?|Hx]; try (by left); right.
        -- exists (literal c). split; [apply elem_of_cons; by left|].
           by apply elem_of_singleton in Hx.
        -- exists (range lo hi). split; [apply elem_of_cons; by left|].
           by apply elem_of_range_set.
      * right. exists it. split; [apply elem_of_cons; by right|done].
    + intros [Hacc|(it & Hin & Hit)].
      * left. destruct item; try done; apply elem_of_union; by left.
      * apply elem_of_cons in Hin as [->|Hin]; [|right; by exists it].
        left. destruct item; try done; apply elem_of_union; right.
        -- by apply elem_of_singleton.
        -- by apply elem_of_range_set.
Qed.

(** X22: the lookouts of a class.  For an 'in' token
    [get_formated_lookouts] lists, each once, exactly the code points of
    the class's 'literal' items and of its 'range' items; the other
    items add nothing.  Each of these code points is covered by the
    intervals the NFA translator computes for the same token. *)
Theorem class_lookouts_are_the_items (items : list sre_token) :
  NoDup (get_formated_lookouts_tuple (in_ items)) /\
  (forall x, x ∈ get_formated_lookouts_tuple (in_ items) <->
     exists item, item ∈ items /\
       match item with
       | literal c => x = c
       | range lo hi => lo <= x <= hi
       | _ => False
       end) /\
  (forall x, x ∈ get_formated_lookouts_tuple (in_ items) ->
     covers (sre_list_to_interval [in_ items]) x).
Proof.
  assert (Hmem : forall x, x ∈ get_formated_lookouts_tuple (in_ items) <->
     exists item, item ∈ items /\
       match item with
       | literal c => x = c
       | range lo hi => lo <= x <= hi
       | _ => False
       end).
  { intros x. cbn [get_formated_lookouts_tuple]. unfold get_ascii_list_from_rse_in.
    rewrite elem_of_elements, elem_of_class_fold. split.
    - by intros [?%elem_of_empty|?].
    - by right. }
  split; [unfold get_formated_lookouts_tuple, get_ascii_list_from_rse_in;
          apply NoDup_elements|].
  split; [exact Hmem|].
  intros x Hx. apply Hmem in Hx as (item & Hin & Hit).
  unfold sre_list_to_interval. rewrite sre_list_to_set_one.
  destruct (set_to_intervals_spec (sre_token_to_set (in_ items)))
    as (_ & _ & Hcov).
  apply Hcov, elem_of_sre_token_to_set_in. exists item. split; [done|].
  destruct item; try done; cbn [sre_token_to_set].
  - by apply elem_of_singleton.
  - by apply elem_of_range_set.
Qed.
